(** * Interstellar dust extinction laws ([extinction.pyx])

    A shallow embedding of the extinction laws of [extinction.pyx] and the
    proofs of the properties its specification states about them.

    Numeric model.  The source computes on C [double]s.  Here a [double] is a
    real number ([R]): arithmetic is exact, so rounding, overflow and NaN are
    outside the model.  Literals are the decimal literals of the source
    ([8.], [2700.] and [1.e4] are written [8], [2700] and [1e4]).  [x**1.61]
    is [Rpower x 1.61], which is the function C's [pow] approximates on the
    positive wavenumbers the laws are defined for.  Comparisons of the source
    are the decidable comparisons [Rlt_dec], [Rle_dec] of [R].

    Out-parameters.  The [cdef] branch functions write their two results
    through [double *a, double *b].  Every one of them assigns both [a[0]]
    and [b[0]] before it reads either, so the value the caller left there is
    never observed; they are modelled as functions returning the pair
    [(a, b)].

    Arrays.  A 1-d [double[:]] view is a [list R]; a loop
    [for i in range(n): result[i] = f(x[i])] is [map f x].

    Doubles.  Where a property is about exact equality of two computed
    results, rounding decides it.  Module [Double] holds [_f99uv] once more on
    IEEE binary64 numbers (the primitive [float]s), operation by operation as
    the source has it, and is used to evaluate it at concrete inputs. *)

From Stdlib Require Import Reals Lra List.
From Stdlib Require Import Floats.
Import ListNotations.
Open Scope R_scope.

(** ** Cardelli, Clayton & Mathis (1989) *)

(** ccm89 a, b parameters for 0.3 < x < 1.1 (infrared) *)
Definition ccm89ab_ir_invum (x : R) : R * R :=
  let y := Rpower x 1.61 in
  (0.574 * y, -0.527 * y).

(** ccm89 a, b parameters for 1.1 < x < 3.3 (optical) *)
Definition ccm89ab_opt_invum (x : R) : R * R :=
  let y := x - 1.82 in
  (((((((0.329990*y - 0.77530)*y + 0.01979)*y + 0.72085)*y - 0.02427)*y
      - 0.50447)*y + 0.17699)*y + 1.0,
   ((((((-2.09002*y + 5.30260)*y - 0.62251)*y - 5.38434)*y + 1.07233)*y
      + 2.28305)*y + 1.41338)*y).

(** ccm89 a, b parameters for 3.3 < x < 8.0 (ultraviolet) *)
Definition ccm89ab_uv_invum (x : R) : R * R :=
  let y := x - 4.67 in
  let a := 1.752 - 0.316*x - (0.104 / (y*y + 0.341)) in
  let y := x - 4.62 in
  let b := -3.090 + 1.825*x + (1.206 / (y*y + 0.263)) in
  if Rlt_dec 5.9 x then
    let y := x - 5.9 in
    let y2 := y * y in
    let y3 := y2 * y in
    (a + (-0.04473*y2 - 0.009779*y3), b + (0.2130*y2 + 0.1207*y3))
  else (a, b).

(** ccm89 a, b parameters for 8 < x < 11 (far-UV) *)
Definition ccm89ab_fuv_invum (x : R) : R * R :=
  let y := x - 8 in
  let y2 := y * y in
  let y3 := y2 * y in
  (-0.070*y3 + 0.137*y2 - 0.628*y - 1.073,
   0.374*y3 - 0.420*y2 + 4.257*y + 13.670).

Definition ccm89ab_invum (x : R) : R * R :=
  if Rlt_dec x 1.1 then ccm89ab_ir_invum x
  else if Rlt_dec x 3.3 then ccm89ab_opt_invum x
  else if Rlt_dec x 8 then ccm89ab_uv_invum x
  else ccm89ab_fuv_invum x.

(** The body shared by every array function of the three polynomial laws:
    [result[i] = a_v * (a + b / r_v)] for the [(a, b)] the law's branch
    selector wrote. *)
Definition scale_ab (a_v r_v : R) (ab : R * R) : R :=
  let '(a, b) := ab in a_v * (a + b / r_v).

Definition ccm89_invum (x : list R) (a_v r_v : R) : list R :=
  map (fun xi => scale_ab a_v r_v (ccm89ab_invum xi)) x.

Definition ccm89_aa (wave : list R) (a_v r_v : R) : list R :=
  map (fun wi => scale_ab a_v r_v (ccm89ab_invum (1e4 / wi))) wave.

Definition ccm89 := ccm89_aa.

(** ** O'Donnell (1994) *)

(** od94 a, b parameters for 1.1 < x < 3.3 (optical) *)
Definition od94ab_opt_invum (x : R) : R * R :=
  let y := x - 1.82 in
  ((((((((-0.505*y + 1.647)*y - 0.827)*y - 1.718)*y + 1.137)*y +
       0.701)*y - 0.609)*y + 0.104)*y + 1.0,
   (((((((3.347*y - 10.805)*y + 5.491)*y + 11.102)*y - 7.985)*y -
       3.989)*y + 2.908)*y + 1.952)*y).

Definition od94ab_invum (x : R) : R * R :=
  if Rlt_dec x 1.1 then ccm89ab_ir_invum x
  else if Rlt_dec x 3.3 then od94ab_opt_invum x
  else if Rlt_dec x 8 then ccm89ab_uv_invum x
  else ccm89ab_fuv_invum x.

Definition od94_invum (x : list R) (a_v r_v : R) : list R :=
  map (fun xi => scale_ab a_v r_v (od94ab_invum xi)) x.

Definition od94_aa (wave : list R) (a_v r_v : R) : list R :=
  map (fun wi => scale_ab a_v r_v (od94ab_invum (1e4 / wi))) wave.

Definition od94 := od94_aa.

(** ** Gordon, Clayton, Clayton & Calzetti (2009) *)

(** gcc09 a, b parameters for x > 3.3 (ultraviolet) *)
Definition gcc09ab_uv_invum (x : R) : R * R :=
  let y := x - 4.57 in
  let a := 1.896 - 0.372*x - 0.0108 / (y*y + 0.0422) in
  let y := x - 4.59 in
  let b := -3.503 + 2.057*x + 0.718 / (y*y + 0.0530*3.1) in
  if Rlt_dec 5.9 x then
    let y := x - 5.9 in
    let y2 := y * y in
    let y3 := y * y2 in
    (a + (-0.110 * y2 - 0.0099 * y3), b + (0.537 * y2 + 0.0530 * y3))
  else (a, b).

Definition gcc09ab_invum (x : R) : R * R :=
  if Rlt_dec x 1.1 then ccm89ab_ir_invum x
  else if Rlt_dec x 3.3 then od94ab_opt_invum x
  else gcc09ab_uv_invum x.

(** The source has no [gcc09_invum]: the Angstrom form is the only array
    function of this law. *)
Definition gcc09_aa (wave : list R) (a_v r_v : R) : list R :=
  map (fun wi => scale_ab a_v r_v (gcc09ab_invum (1e4 / wi))) wave.

Definition gcc09 := gcc09_aa.

(** ** Fitzpatrick (1999) *)

Definition F99_X0 : R := 4.596.
Definition F99_GAMMA : R := 0.99.
Definition F99_C3 : R := 3.23.
Definition F99_C4 : R := 0.41.
Definition F99_C5 : R := 5.9.
Definition F99_X02 : R := F99_X0 * F99_X0.
Definition F99_GAMMA2 : R := F99_GAMMA * F99_GAMMA.

(** Fitzpatrick (1999) function for wavelengths < 2700 Angstroms *)
Definition _f99uv (wave a_v r_v : R) : R :=
  let c2 := -0.824 + 4.717 / r_v in
  let c1 := 2.030 - 3.007 * c2 in
  let x := 1e4 / wave in
  let x2 := x * x in
  let y := x2 - F99_X02 in
  let d := x2 / (y * y + x2 * F99_GAMMA2) in
  let k := c1 + c2 * x + F99_C3 * d in
  let k :=
    if Rle_dec F99_C5 x then
      let y := x - F99_C5 in
      let y2 := y * y in
      k + F99_C4 * (0.5392 * y2 + 0.05644 * y2 * y)
    else k in
  a_v * (1 + k / r_v).

(** One pass of the loop [for i in range(7,9)] of [_f99kknots]. *)
Definition f99_uvknot (c1 c2 xi : R) : R :=
  let x2 := xi * xi in
  let y := x2 - F99_X02 in
  let d := x2 / (y * y + x2 * F99_GAMMA2) in
  c1 + c2 * xi + F99_C3 * d.

(** [xknots[i]] for an index within the array.  Out of range the source
    raises [IndexError]; here the entry reads as 0, so what is proved of
    [_f99kknots] is stated for arrays of at least nine entries (the class's
    [_XKNOTS] has nine). *)
Definition xknot (xknots : list R) (i : nat) : R := nth i xknots 0.

Definition _f99kknots (xknots : list R) (r_v : R) : list R :=
  let c2 := -0.824 + 4.717 / r_v in
  let c1 := 2.030 - 3.007 * c2 in
  let rv2 := r_v * r_v in
  [ - r_v;
    0.26469 * r_v / 3.1 - r_v;
    0.82925 * r_v / 3.1 - r_v;
    -0.422809 + 1.00270*r_v + 2.13572e-04*rv2 - r_v;
    -5.13540e-02 + 1.00216 * r_v - 7.35778e-05*rv2 - r_v;
    0.700127 + 1.00184*r_v - 3.32598e-05*rv2 - r_v;
    1.19456 + 1.01707*r_v - 5.46959e-03*rv2 +
      7.97809e-04 * rv2 * r_v - 4.45636e-05 * rv2*rv2 - r_v;
    f99_uvknot c1 c2 (xknot xknots 7);
    f99_uvknot c1 c2 (xknot xknots 8) ].

(** [1.e4 / np.array([np.inf, 26500., ...])]: the first entry, [1e4/inf],
    is the wavenumber 0. *)
Definition _XKNOTS : list R :=
  0 :: map (fun w => 1e4 / w)
           [26500; 12200; 6000; 5470; 4670; 4110; 2700; 2600].

(** ** Fitzpatrick & Massa (2007) *)

Definition FM07_X0 : R := 4.592.
Definition FM07_GAMMA : R := 0.922.
Definition FM07_C1 : R := -0.175.
Definition FM07_C2 : R := 0.807.
Definition FM07_C3 : R := 2.991.
Definition FM07_C4 : R := 0.319.
Definition FM07_C5 : R := 6.097.
Definition FM07_X02 : R := FM07_X0 * FM07_X0.
Definition FM07_GAMMA2 : R := FM07_GAMMA * FM07_GAMMA.

Definition fm07uv_sample (a_v wi : R) : R :=
  let x := 1e4 / wi in
  let x2 := x * x in
  let y := x2 - FM07_X02 in
  let d := x2 / (y*y + x2 * FM07_GAMMA2) in
  let k := FM07_C1 + FM07_C2 * x + FM07_C3 * d in
  let k :=
    if Rlt_dec FM07_C5 x then
      let y := x - FM07_C5 in
      k + FM07_C4 * y * y
    else k in
  a_v * (1 + k / 3.1).

Definition _fm07uv (wave : list R) (a_v : R) : list R :=
  map (fun wi => fm07uv_sample a_v wi) wave.

(** [k] of [_fm07uv] before its [if], as a function of [x]. *)
Definition fm07_kbase (x : R) : R :=
  FM07_C1 + FM07_C2 * x +
  FM07_C3 * (x * x / ((x * x - FM07_X02) * (x * x - FM07_X02) +
                      x * x * FM07_GAMMA2)).

(** *** The knot values of FM07

    [_fm07kknots] fills an array it got from [np.empty], item by item.  An
    access past the end of [xknots] or of [kknots] raises [IndexError], which
    ends the call: a failed call is [None].  [np.empty(n)] is an array of [n]
    doubles holding whatever the memory held; [u i] stands for the value
    found at index [i]. *)

Definition FM07_R_V : R := 3.1.

(** C's [pow] on a base that is not negative, for a positive exponent:
    [pow(0, y)] is 0. *)
Definition cpow (x y : R) : R :=
  if Rlt_dec 0 x then Rpower x y else 0.

Definition np_empty (u : nat -> R) (n : nat) : list R := map u (seq 0 n).

(** [a[i]], for [i >= 0]. *)
Definition getitem (a : list R) (i : nat) : option R := nth_error a i.

(** [a[i] = v], for [i >= 0]. *)
Definition setitem (a : list R) (i : nat) (v : R) : option (list R) :=
  if (i <? length a)%nat
  then Some (firstn i a ++ v :: skipn (S i) a)
  else None.

Definition raise_or {A B : Type} (m : option A) (k : A -> option B) : option B :=
  match m with
  | Some a => k a
  | None => None
  end.

Notation "x <- m ;; k" := (raise_or m (fun x => k))
  (at level 61, m at next level, right associativity).

(** The body of [for i in range(0, 5)]. *)
Definition fm07_power_knot (xknots kknots : list R) (i : nat) : option (list R) :=
  xi <- getitem xknots i ;;
  setitem kknots i ((-0.83 + 0.63*FM07_R_V) * cpow xi 1.84 - FM07_R_V).

(** The body of [for i in range(8, 10)]. *)
Definition fm07_uv_knot (xknots kknots : list R) (i : nat) : option (list R) :=
  xi <- getitem xknots i ;;
  let d := xi^2 / ((xi^2 - FM07_X02)^2 + xi^2 * FM07_GAMMA2) in
  setitem kknots i (FM07_C1 + FM07_C2 * xi + FM07_C3 * d).

(** [for i in range(first, first + count): kknots = body(kknots, i)] *)
Fixpoint for_range (body : list R -> nat -> option (list R))
  (first count : nat) (kknots : list R) : option (list R) :=
  match count with
  | O => Some kknots
  | S count' =>
      kknots' <- body kknots first ;;
      for_range body (S first) count' kknots'
  end.

Definition _fm07kknots (u : nat -> R) (xknots : list R) : option (list R) :=
  let n := length xknots in
  let kknots := np_empty u n in
  kknots <- for_range (fm07_power_knot xknots) 0 5 kknots ;;
  kknots <- setitem kknots 5 0 ;;
  kknots <- setitem kknots 6 1.322 ;;
  kknots <- setitem kknots 7 2.055 ;;
  kknots <- for_range (fm07_uv_knot xknots) 8 2 kknots ;;
  Some kknots.

(** ** The [F99Extinction] class

    [splmake] and [spleval] are SciPy's ([scipy.interpolate]); they are not
    part of this program and are taken as parameters: [spline] is the
    representation [splmake] returns, [splmake xk yk order] builds it and
    [spleval s x] is the value of the spline at one abscissa ([spleval] on
    an array evaluates it at every entry). *)

Section F99Extinction.

Variable spline : Type.
Variable splmake : list R -> list R -> nat -> spline.
Variable spleval : spline -> R -> R.

(** The instance: its attributes [self.r_v] and [self._spline]. *)
Record F99Extinction : Type := mkF99Extinction {
  r_v : R;
  _spline : spline
}.

Definition __init__ (r_v : R) : F99Extinction :=
  let kknots := _f99kknots _XKNOTS r_v in
  mkF99Extinction r_v (splmake _XKNOTS kknots 3).

(** The loop of [__call__]: [out] holds the spline values [k] on entry and
    every entry is overwritten in place, by the optical/IR adjustment when
    [wave[i] > 2700.] and by [_f99uv] otherwise. *)
Fixpoint f99_overwrite (a_v r_v ebv : R) (wave out : list R) : list R :=
  match wave, out with
  | w :: wave', o :: out' =>
      (if Rlt_dec 2700 w then ebv * (o + r_v) else _f99uv w a_v r_v)
      :: f99_overwrite a_v r_v ebv wave' out'
  | _, _ => []
  end.

Definition __call__ (self : F99Extinction) (wave : list R) (a_v : R) : list R :=
  let r_v := r_v self in
  let ebv := a_v / r_v in
  let out := map (spleval (_spline self)) (map (fun w => 1e4 / w) wave) in
  f99_overwrite a_v r_v ebv wave out.

(** Functional interface for Fitzpatrick (1999) with R_V = 3.1 *)
Definition f99 : F99Extinction := __init__ 3.1.

End F99Extinction.

Arguments r_v {spline} _.
Arguments _spline {spline} _.
Arguments __init__ {spline} splmake r_v.
Arguments __call__ {spline} spleval self wave a_v.
Arguments f99 {spline} splmake.

(** ** The parts of the ultraviolet formulas

    The ultraviolet functions compute a rational term and then, behind a
    test on [x], add a polynomial in [x - 5.9] to it.  The two parts are named
    here so that the properties below can say which of them a result holds. *)

(** [a] and [b] of [ccm89ab_uv_invum] before its [if]. *)
Definition ccm89_uv_base (x : R) : R * R :=
  (1.752 - 0.316*x - (0.104 / ((x - 4.67)*(x - 4.67) + 0.341)),
   -3.090 + 1.825*x + (1.206 / ((x - 4.62)*(x - 4.62) + 0.263))).

(** What the [if] of [ccm89ab_uv_invum] adds to [a] and to [b]. *)
Definition ccm89_uv_extra (x : R) : R * R :=
  let y := x - 5.9 in
  (-0.04473*(y*y) - 0.009779*(y*y*y), 0.2130*(y*y) + 0.1207*(y*y*y)).

(** [a] and [b] of [gcc09ab_uv_invum] before its [if]. *)
Definition gcc09_uv_base (x : R) : R * R :=
  (1.896 - 0.372*x - 0.0108 / ((x - 4.57)*(x - 4.57) + 0.0422),
   -3.503 + 2.057*x + 0.718 / ((x - 4.59)*(x - 4.59) + 0.0530*3.1)).

(** What the [if] of [gcc09ab_uv_invum] adds to [a] and to [b]. *)
Definition gcc09_uv_extra (x : R) : R * R :=
  let y := x - 5.9 in
  (-0.110 * (y*y) - 0.0099 * (y*(y*y)), 0.537 * (y*y) + 0.0530 * (y*(y*y))).

(** [k] of [_f99uv] before its [if], as a function of [r_v] and [x]. *)
Definition f99_kbase (r_v x : R) : R :=
  let c2 := -0.824 + 4.717 / r_v in
  let c1 := 2.030 - 3.007 * c2 in
  f99_uvknot c1 c2 x.

(** What the [if] of [_f99uv] adds to [k]. *)
Definition f99_kextra (x : R) : R :=
  let y := x - F99_C5 in
  F99_C4 * (0.5392 * (y*y) + 0.05644 * (y*y) * y).

(** Component-wise sum of two [(a, b)] pairs. *)
Definition add_ab (p q : R * R) : R * R :=
  (fst p + fst q, snd p + snd q).

(** ** Two stand-ins for the SciPy spline

    Used only to instantiate the parameters of [F99Extinction] at concrete
    inputs. *)

(** A spline that is 0 everywhere, whatever the knots. *)
Definition zero_splmake (xk yk : list R) (order : nat) : unit := tt.
Definition zero_spleval (s : unit) (x : R) : R := 0.

(** The straight line through the knots of index 7 and 8, kept as the
    abscissa and the value of knot 7 and the slope. *)
Definition line_splmake (xk yk : list R) (order : nat) : R * R * R :=
  (nth 7 xk 0, nth 7 yk 0,
   (nth 8 yk 0 - nth 7 yk 0) / (nth 8 xk 0 - nth 7 xk 0)).
Definition line_spleval (s : R * R * R) (x : R) : R :=
  let '(x7, k7, m) := s in k7 + m * (x - x7).

(** Ten abscissae in the layout [_fm07kknots] expects (five for the power
    law, three for the constants, two ultraviolet ones), used only to
    instantiate its properties. *)
Definition ten_xknots : list R :=
  0 :: map (fun w => 1e4 / w)
           [40000; 20000; 12500; 10000; 5530; 4000; 3300; 2700; 2600].

(** ** [_f99uv] on IEEE doubles

    The same function on binary64 numbers: every literal is the double
    nearest to the decimal, every operation rounds to nearest, and the
    compile-time constants [F99_X02] and [F99_GAMMA2] are the rounded
    products. *)

#[local] Set Warnings "-inexact-float".

Module Double.

Local Open Scope float_scope.

Definition F99_X0 : float := 4.596.
Definition F99_GAMMA : float := 0.99.
Definition F99_C3 : float := 3.23.
Definition F99_C4 : float := 0.41.
Definition F99_C5 : float := 5.9.
Definition F99_X02 : float := F99_X0 * F99_X0.
Definition F99_GAMMA2 : float := F99_GAMMA * F99_GAMMA.

(** Fitzpatrick (1999) function for wavelengths < 2700 Angstroms *)
Definition _f99uv (wave a_v r_v : float) : float :=
  let c2 := -0.824 + 4.717 / r_v in
  let c1 := 2.030 - 3.007 * c2 in
  let x := 1e4 / wave in
  let x2 := x * x in
  let y := x2 - F99_X02 in
  let d := x2 / (y * y + x2 * F99_GAMMA2) in
  let k := c1 + c2 * x + F99_C3 * d in
  let k :=
    if F99_C5 <=? x then
      let y := x - F99_C5 in
      let y2 := y * y in
      k + F99_C4 * (0.5392 * y2 + 0.05644 * y2 * y)
    else k in
  a_v * (1 + k / r_v).

End Double.

(** ** Branch selection *)

Ltac pick_branch :=
  repeat match goal with
         | |- context [Rlt_dec ?a ?b] => destruct (Rlt_dec a b); try lra
         | |- context [Rle_dec ?a ?b] => destruct (Rle_dec a b); try lra
         end;
  try reflexivity.

(** Unfolds the branch functions at a concrete wavenumber. *)
Ltac branch_values :=
  unfold ccm89ab_opt_invum, od94ab_opt_invum, ccm89ab_uv_invum,
    gcc09ab_uv_invum, ccm89ab_fuv_invum;
  cbv zeta;
  repeat match goal with
         | |- context [Rlt_dec ?a ?b] => destruct (Rlt_dec a b); try lra
         end;
  simpl fst; simpl snd.

Ltac sq_plus_pos :=
  match goal with
  | |- ?a * ?a + _ <> 0 =>
      let Hs := fresh "Hs" in
      pose proof (Rle_0_sqr a) as Hs; unfold Rsqr in Hs; lra
  end.

Ltac run_knots :=
  unfold _fm07kknots, np_empty;
  cbn -[cpow Rmult Rplus Rminus Rdiv Ropp pow INR IZR].

Lemma ccm89ab_invum_ir x : x < 1.1 -> ccm89ab_invum x = ccm89ab_ir_invum x.
Proof. intros H; unfold ccm89ab_invum; pick_branch. Qed.

Lemma ccm89ab_invum_opt x :
  1.1 <= x < 3.3 -> ccm89ab_invum x = ccm89ab_opt_invum x.
Proof. intros H; unfold ccm89ab_invum; pick_branch. Qed.

Lemma ccm89ab_invum_uv x :
  3.3 <= x < 8 -> ccm89ab_invum x = ccm89ab_uv_invum x.
Proof. intros H; unfold ccm89ab_invum; pick_branch. Qed.

Lemma ccm89ab_invum_fuv x : 8 <= x -> ccm89ab_invum x = ccm89ab_fuv_invum x.
Proof. intros H; unfold ccm89ab_invum; pick_branch. Qed.

Lemma od94ab_invum_ir x : x < 1.1 -> od94ab_invum x = ccm89ab_ir_invum x.
Proof. intros H; unfold od94ab_invum; pick_branch. Qed.

Lemma od94ab_invum_opt x :
  1.1 <= x < 3.3 -> od94ab_invum x = od94ab_opt_invum x.
Proof. intros H; unfold od94ab_invum; pick_branch. Qed.

Lemma od94ab_invum_uv x :
  3.3 <= x < 8 -> od94ab_invum x = ccm89ab_uv_invum x.
Proof. intros H; unfold od94ab_invum; pick_branch. Qed.

Lemma od94ab_invum_fuv x : 8 <= x -> od94ab_invum x = ccm89ab_fuv_invum x.
Proof. intros H; unfold od94ab_invum; pick_branch. Qed.

Lemma gcc09ab_invum_ir x : x < 1.1 -> gcc09ab_invum x = ccm89ab_ir_invum x.
Proof. intros H; unfold gcc09ab_invum; pick_branch. Qed.

Lemma gcc09ab_invum_opt x :
  1.1 <= x < 3.3 -> gcc09ab_invum x = od94ab_opt_invum x.
Proof. intros H; unfold gcc09ab_invum; pick_branch. Qed.

Lemma gcc09ab_invum_uv x : 3.3 <= x -> gcc09ab_invum x = gcc09ab_uv_invum x.
Proof. intros H; unfold gcc09ab_invum; pick_branch. Qed.

(** C5.  CCM89, OD94 and GCC09 compare the wavenumber with a strict [<] at
    each upper threshold: a wavenumber below a threshold takes the branch
    that ends there, and a wavenumber equal to it takes the next, higher one.
    So 1.1 is evaluated by the optical branch (not the infrared one), 3.3 by
    the ultraviolet branch and, for CCM89 and OD94, 8.0 by the far-UV branch;
    GCC09 has no far-UV branch and keeps its ultraviolet branch at 8.0. *)
Theorem threshold_selects_higher_branch :
  ((ccm89ab_invum 1.1 = ccm89ab_opt_invum 1.1 /\
    ccm89ab_invum 3.3 = ccm89ab_uv_invum 3.3 /\
    ccm89ab_invum 8.0 = ccm89ab_fuv_invum 8.0) /\
   (forall x, x < 1.1 -> ccm89ab_invum x = ccm89ab_ir_invum x) /\
   (forall x, 1.1 <= x < 3.3 -> ccm89ab_invum x = ccm89ab_opt_invum x) /\
   (forall x, 3.3 <= x < 8.0 -> ccm89ab_invum x = ccm89ab_uv_invum x) /\
   (forall x, 8.0 <= x -> ccm89ab_invum x = ccm89ab_fuv_invum x)) /\
  ((od94ab_invum 1.1 = od94ab_opt_invum 1.1 /\
    od94ab_invum 3.3 = ccm89ab_uv_invum 3.3 /\
    od94ab_invum 8.0 = ccm89ab_fuv_invum 8.0) /\
   (forall x, x < 1.1 -> od94ab_invum x = ccm89ab_ir_invum x) /\
   (forall x, 1.1 <= x < 3.3 -> od94ab_invum x = od94ab_opt_invum x) /\
   (forall x, 3.3 <= x < 8.0 -> od94ab_invum x = ccm89ab_uv_invum x) /\
   (forall x, 8.0 <= x -> od94ab_invum x = ccm89ab_fuv_invum x)) /\
  ((gcc09ab_invum 1.1 = od94ab_opt_invum 1.1 /\
    gcc09ab_invum 3.3 = gcc09ab_uv_invum 3.3 /\
    gcc09ab_invum 8.0 = gcc09ab_uv_invum 8.0) /\
   (forall x, x < 1.1 -> gcc09ab_invum x = ccm89ab_ir_invum x) /\
   (forall x, 1.1 <= x < 3.3 -> gcc09ab_invum x = od94ab_opt_invum x) /\
   (forall x, 3.3 <= x -> gcc09ab_invum x = gcc09ab_uv_invum x)).
Proof.
  split; [|split].
  - split; [|split; [|split; [|split]]].
    + split; [apply ccm89ab_invum_opt; lra|].
      split; [apply ccm89ab_invum_uv; lra | apply ccm89ab_invum_fuv; lra].
    + exact ccm89ab_invum_ir.
    + exact ccm89ab_invum_opt.
    + intros x Hx; apply ccm89ab_invum_uv; lra.
    + intros x Hx; apply ccm89ab_invum_fuv; lra.
  - split; [|split; [|split; [|split]]].
    + split; [apply od94ab_invum_opt; lra|].
      split; [apply od94ab_invum_uv; lra | apply od94ab_invum_fuv; lra].
    + exact od94ab_invum_ir.
    + exact od94ab_invum_opt.
    + intros x Hx; apply od94ab_invum_uv; lra.
    + intros x Hx; apply od94ab_invum_fuv; lra.
  - split; [|split; [|split]].
    + split; [apply gcc09ab_invum_opt; lra|].
      split; apply gcc09ab_invum_uv; lra.
    + exact gcc09ab_invum_ir.
    + exact gcc09ab_invum_opt.
    + exact gcc09ab_invum_uv.
Qed.

(** ** The polynomial laws as functions of one sample *)

Lemma od94ab_eq_ccm89ab x :
  x < 1.1 \/ 3.3 <= x -> od94ab_invum x = ccm89ab_invum x.
Proof. intros [H | H]; unfold od94ab_invum, ccm89ab_invum; pick_branch. Qed.

Lemma gcc09ab_eq_od94ab x :
  1.1 <= x < 3.3 -> gcc09ab_invum x = od94ab_invum x.
Proof. intros H; unfold gcc09ab_invum, od94ab_invum; pick_branch. Qed.

Lemma map_ext_Forall {A B : Type} (P : A -> Prop) (f g : A -> B) (l : list A) :
  (forall a, P a -> f a = g a) -> Forall P l -> map f l = map g l.
Proof.
  intros Hfg Hl; induction Hl as [|a l Ha _ IH]; simpl; [reflexivity|].
  rewrite IH, (Hfg a Ha); reflexivity.
Qed.

(** C6.  With a nonzero R_V: on samples outside the optical branch ([x < 1.1]
    or [x >= 3.3]) OD94 returns exactly what CCM89 returns, in both unit
    forms; on samples inside it ([1.1 <= x < 3.3]) GCC09 returns exactly what
    OD94 returns (GCC09, which has only the Angstrom form, is compared through
    [x = 1e4/wave]). *)
Theorem od94_ccm89_gcc09_agree (a_v r_v : R) (Hrv : r_v <> 0) :
  (forall x, Forall (fun xi => xi < 1.1 \/ 3.3 <= xi) x ->
     od94_invum x a_v r_v = ccm89_invum x a_v r_v) /\
  (forall wave, Forall (fun wi => 1e4 / wi < 1.1 \/ 3.3 <= 1e4 / wi) wave ->
     od94_aa wave a_v r_v = ccm89_aa wave a_v r_v) /\
  (forall x, 1.1 <= x < 3.3 ->
     scale_ab a_v r_v (gcc09ab_invum x) = scale_ab a_v r_v (od94ab_invum x)) /\
  (forall wave, Forall (fun wi => 1.1 <= 1e4 / wi < 3.3) wave ->
     gcc09_aa wave a_v r_v = od94_aa wave a_v r_v).
Proof.
  repeat split.
  - intros x Hx. unfold od94_invum, ccm89_invum.
    apply (map_ext_Forall _ _ _ _ (fun xi H => f_equal _ (od94ab_eq_ccm89ab xi H)) Hx).
  - intros wave Hw. unfold od94_aa, ccm89_aa.
    apply (map_ext_Forall _ _ _ _
             (fun wi H => f_equal _ (od94ab_eq_ccm89ab (1e4 / wi) H)) Hw).
  - intros x Hx. rewrite (gcc09ab_eq_od94ab x Hx). reflexivity.
  - intros wave Hw. unfold gcc09_aa, od94_aa.
    apply (map_ext_Forall _ _ _ _
             (fun wi H => f_equal _ (gcc09ab_eq_od94ab (1e4 / wi) H)) Hw).
Qed.

Lemma od94_ccm89_gcc09_agree_at_3_1 :
  (od94_invum [0.5; 3.3; 9] 1 3.1 = ccm89_invum [0.5; 3.3; 9] 1 3.1) /\
  (gcc09_aa [5500] 1 3.1 = od94_aa [5500] 1 3.1).
Proof.
  destruct (od94_ccm89_gcc09_agree 1 3.1) as (H1 & _ & _ & H4); [lra|].
  split.
  - apply H1. repeat constructor; lra.
  - apply H4. repeat constructor; lra.
Defined.

(** C7.  For positive wavelengths and a nonzero R_V the Angstrom form of
    CCM89 and of OD94 is, element for element, the inverse-micron form at
    [1e4/wave]; GCC09, whose inverse-micron array form the source does not
    define, applies its branch selector at [1e4/wave] in the same way. *)
Theorem aa_is_invum_of_wavenumber (wave : list R) (a_v r_v : R)
  (Hwave : Forall (fun wi => 0 < wi) wave) (Hrv : r_v <> 0) :
  ccm89_aa wave a_v r_v = ccm89_invum (map (fun wi => 1e4 / wi) wave) a_v r_v /\
  od94_aa wave a_v r_v = od94_invum (map (fun wi => 1e4 / wi) wave) a_v r_v /\
  gcc09_aa wave a_v r_v =
    map (fun xi => scale_ab a_v r_v (gcc09ab_invum xi))
        (map (fun wi => 1e4 / wi) wave).
Proof.
  unfold ccm89_aa, ccm89_invum, od94_aa, od94_invum, gcc09_aa.
  rewrite !map_map. repeat split; reflexivity.
Qed.

Lemma aa_is_invum_of_wavenumber_at_5500 :
  ccm89_aa [5500; 2000] 1 3.1 = ccm89_invum [1e4 / 5500; 1e4 / 2000] 1 3.1 /\
  od94_aa [5500; 2000] 1 3.1 = od94_invum [1e4 / 5500; 1e4 / 2000] 1 3.1 /\
  gcc09_aa [5500; 2000] 1 3.1 =
    [scale_ab 1 3.1 (gcc09ab_invum (1e4 / 5500));
     scale_ab 1 3.1 (gcc09ab_invum (1e4 / 2000))].
Proof.
  apply (aa_is_invum_of_wavenumber [5500; 2000] 1 3.1).
  - repeat constructor; lra.
  - lra.
Defined.

(** C9.  CCM89 at the single wavelength 5500 Angstroms, whose wavenumber
    [1e4/5500] lies in the optical branch, with A_V = 1 and R_V = 3.1, is
    within 0.05 magnitudes of 1.0. *)
Theorem ccm89_v_band_normalisation :
  1.1 <= 1e4 / 5500 < 3.3 /\
  ccm89ab_invum (1e4 / 5500) = ccm89ab_opt_invum (1e4 / 5500) /\
  exists v, ccm89_aa [5500] 1 3.1 = [v] /\ Rabs (v - 1.0) < 0.05.
Proof.
  assert (Hx : 1.1 <= 1e4 / 5500 < 3.3) by lra.
  split; [exact Hx|].
  split; [apply ccm89ab_invum_opt; exact Hx|].
  unfold ccm89_aa; simpl map.
  rewrite (ccm89ab_invum_opt _ Hx).
  eexists; split; [reflexivity|].
  unfold scale_ab, ccm89ab_opt_invum; cbv zeta.
  apply Rabs_def1; lra.
Qed.

(** ** The ultraviolet correction *)

Lemma ccm89ab_uv_invum_below x :
  x <= 5.9 -> ccm89ab_uv_invum x = ccm89_uv_base x.
Proof. intros H; unfold ccm89ab_uv_invum, ccm89_uv_base; pick_branch. Qed.

Lemma ccm89ab_uv_invum_above x :
  5.9 < x -> ccm89ab_uv_invum x = add_ab (ccm89_uv_base x) (ccm89_uv_extra x).
Proof.
  intros H; unfold ccm89ab_uv_invum, ccm89_uv_base, ccm89_uv_extra, add_ab.
  pick_branch.
Qed.

Lemma gcc09ab_uv_invum_below x :
  x <= 5.9 -> gcc09ab_uv_invum x = gcc09_uv_base x.
Proof. intros H; unfold gcc09ab_uv_invum, gcc09_uv_base; pick_branch. Qed.

Lemma gcc09ab_uv_invum_above x :
  5.9 < x -> gcc09ab_uv_invum x = add_ab (gcc09_uv_base x) (gcc09_uv_extra x).
Proof.
  intros H; unfold gcc09ab_uv_invum, gcc09_uv_base, gcc09_uv_extra, add_ab.
  pick_branch.
Qed.

(** [_f99uv] enters its [if] at [x = 5.9] too ([x >= F99_C5]); what it adds
    there is [F99_C4 * 0]. *)
Lemma f99_kextra_at_C5 : f99_kextra F99_C5 = 0.
Proof. unfold f99_kextra; cbv zeta; ring. Qed.

Lemma _f99uv_below wave a_v r_v :
  1e4 / wave <= 5.9 ->
  _f99uv wave a_v r_v = a_v * (1 + f99_kbase r_v (1e4 / wave) / r_v).
Proof.
  intros H. unfold _f99uv, f99_kbase, f99_uvknot, F99_C5; cbv zeta.
  destruct (Rle_dec 5.9 (1e4 / wave)) as [Hge | Hlt]; [|reflexivity].
  replace (1e4 / wave) with 5.9 by lra.
  f_equal. f_equal. f_equal. ring.
Qed.

Lemma _f99uv_above wave a_v r_v :
  5.9 < 1e4 / wave ->
  _f99uv wave a_v r_v =
  a_v * (1 + (f99_kbase r_v (1e4 / wave) + f99_kextra (1e4 / wave)) / r_v).
Proof.
  intros H. unfold _f99uv, f99_kbase, f99_kextra, f99_uvknot, F99_C5; cbv zeta.
  destruct (Rle_dec 5.9 (1e4 / wave)) as [Hge | Hlt]; [reflexivity | lra].
Qed.

Lemma pow3_pos y : 0 < y -> 0 < y * y /\ 0 < y * y * y /\ 0 < y * (y * y).
Proof.
  intros Hy.
  assert (H2 : 0 < y * y) by (apply Rmult_lt_0_compat; assumption).
  repeat split; [assumption | |]; apply Rmult_lt_0_compat; assumption.
Qed.

Lemma ccm89_uv_extra_sign x :
  5.9 < x -> fst (ccm89_uv_extra x) < 0 /\ 0 < snd (ccm89_uv_extra x).
Proof.
  intros H. unfold ccm89_uv_extra; cbv zeta; simpl fst; simpl snd.
  destruct (pow3_pos (x - 5.9)) as (H2 & H3 & _); [lra|]. lra.
Qed.

Lemma gcc09_uv_extra_sign x :
  5.9 < x -> fst (gcc09_uv_extra x) < 0 /\ 0 < snd (gcc09_uv_extra x).
Proof.
  intros H. unfold gcc09_uv_extra; cbv zeta; simpl fst; simpl snd.
  destruct (pow3_pos (x - 5.9)) as (H2 & _ & H3); [lra|]. lra.
Qed.

Lemma f99_kextra_pos x : 5.9 < x -> 0 < f99_kextra x.
Proof.
  intros H. unfold f99_kextra, F99_C5, F99_C4; cbv zeta.
  destruct (pow3_pos (x - 5.9)) as (H2 & H3 & _); [lra|]. lra.
Qed.

(** C4.  The ultraviolet functions add their correction term for [x > 5.9]
    and for no other [x].  At [x = 5.9] the result is the uncorrected one; for
    every [x > 5.9] it is the uncorrected one plus the correction, which is
    not zero there (negative in [a], positive in [b] and in the F99 [k]); so
    at the spec's own [x = 5.900001].  This holds for [ccm89ab_uv_invum] (the
    ultraviolet branch of CCM89 and OD94), for [gcc09ab_uv_invum] and for
    [_f99uv], whose wavenumber is [1e4/wave]. *)
Theorem uv_correction_only_above_5_9 :
  (ccm89ab_uv_invum 5.9 = ccm89_uv_base 5.9 /\
   (forall x, x <= 5.9 -> ccm89ab_uv_invum x = ccm89_uv_base x) /\
   (forall x, 5.9 < x ->
      ccm89ab_uv_invum x = add_ab (ccm89_uv_base x) (ccm89_uv_extra x) /\
      fst (ccm89_uv_extra x) < 0 /\ 0 < snd (ccm89_uv_extra x)) /\
   ccm89ab_uv_invum 5.900001 =
     add_ab (ccm89_uv_base 5.900001) (ccm89_uv_extra 5.900001)) /\
  (gcc09ab_uv_invum 5.9 = gcc09_uv_base 5.9 /\
   (forall x, x <= 5.9 -> gcc09ab_uv_invum x = gcc09_uv_base x) /\
   (forall x, 5.9 < x ->
      gcc09ab_uv_invum x = add_ab (gcc09_uv_base x) (gcc09_uv_extra x) /\
      fst (gcc09_uv_extra x) < 0 /\ 0 < snd (gcc09_uv_extra x)) /\
   gcc09ab_uv_invum 5.900001 =
     add_ab (gcc09_uv_base 5.900001) (gcc09_uv_extra 5.900001)) /\
  (forall a_v r_v,
   _f99uv (1e4 / 5.9) a_v r_v = a_v * (1 + f99_kbase r_v 5.9 / r_v) /\
   (forall wave, 1e4 / wave <= 5.9 ->
      _f99uv wave a_v r_v = a_v * (1 + f99_kbase r_v (1e4 / wave) / r_v)) /\
   (forall wave, 5.9 < 1e4 / wave ->
      _f99uv wave a_v r_v =
        a_v * (1 + (f99_kbase r_v (1e4 / wave) + f99_kextra (1e4 / wave)) / r_v) /\
      0 < f99_kextra (1e4 / wave))).
Proof.
  split; [|split].
  - split; [apply ccm89ab_uv_invum_below; lra|].
    split; [exact ccm89ab_uv_invum_below|].
    split; [|apply ccm89ab_uv_invum_above; lra].
    intros x Hx. split; [apply ccm89ab_uv_invum_above; exact Hx|].
    apply ccm89_uv_extra_sign; exact Hx.
  - split; [apply gcc09ab_uv_invum_below; lra|].
    split; [exact gcc09ab_uv_invum_below|].
    split; [|apply gcc09ab_uv_invum_above; lra].
    intros x Hx. split; [apply gcc09ab_uv_invum_above; exact Hx|].
    apply gcc09_uv_extra_sign; exact Hx.
  - intros a_v r_v. split; [|split].
    + rewrite _f99uv_below by lra.
      replace (1e4 / (1e4 / 5.9)) with 5.9 by lra. reflexivity.
    + intros wave Hw. apply _f99uv_below; exact Hw.
    + intros wave Hw. split; [apply _f99uv_above; exact Hw|].
      apply f99_kextra_pos; exact Hw.
Qed.

(** ** [F99Extinction.__call__], sample by sample *)

Section F99Properties.

Variable spline : Type.
Variable splmake : list R -> list R -> nat -> spline.
Variable spleval : spline -> R -> R.

(** What [__call__] leaves in [out[i]] for the wavelength [w]. *)
Lemma call_as_map (self : F99Extinction spline) wave a_v :
  __call__ spleval self wave a_v =
  map (fun w =>
         if Rlt_dec 2700 w
         then a_v / r_v self * (spleval (_spline self) (1e4 / w) + r_v self)
         else _f99uv w a_v (r_v self)) wave.
Proof.
  unfold __call__; cbv zeta.
  induction wave as [|w wave IH]; simpl; [reflexivity|].
  f_equal. exact IH.
Qed.

Lemma call_spline_side (self : F99Extinction spline) w a_v :
  2700 < w ->
  __call__ spleval self [w] a_v =
  [a_v / r_v self * (spleval (_spline self) (1e4 / w) + r_v self)].
Proof. intros H; rewrite call_as_map; simpl; pick_branch. Qed.

Lemma call_uv_side (self : F99Extinction spline) w a_v :
  w <= 2700 ->
  __call__ spleval self [w] a_v = [_f99uv w a_v (r_v self)].
Proof. intros H; rewrite call_as_map; simpl; pick_branch. Qed.

(** C1, as the code has it.  [__call__] tests [wave[i] > 2700.] for the
    spline side, so a sample at exactly 2700 Angstroms is on the other side:
    its value is [_f99uv 2700 a_v r_v], whatever the spline is.  The spline
    value scaled by [(a_v/r_v)*(k + r_v)] is the result for every wavelength
    strictly above 2700, and [_f99uv] for every wavelength up to and including
    2700. *)
Theorem f99_boundary_2700_is_analytic_uv (self : F99Extinction spline) (a_v : R) :
  __call__ spleval self [2700] a_v = [_f99uv 2700 a_v (r_v self)] /\
  (forall w, w <= 2700 ->
     __call__ spleval self [w] a_v = [_f99uv w a_v (r_v self)]) /\
  (forall w, 2700 < w ->
     __call__ spleval self [w] a_v =
     [a_v / r_v self * (spleval (_spline self) (1e4 / w) + r_v self)]).
Proof.
  split; [apply call_uv_side; lra|].
  split; [intros w Hw; apply call_uv_side; exact Hw|].
  intros w Hw; apply call_spline_side; exact Hw.
Qed.

(** ** A_V = 0 and linearity in A_V *)

Lemma scale_ab_0 r_v ab : scale_ab 0 r_v ab = 0.
Proof. destruct ab as [a b]; unfold scale_ab; ring. Qed.

Lemma scale_ab_linear c a_v r_v ab :
  scale_ab (c * a_v) r_v ab = c * scale_ab a_v r_v ab.
Proof. destruct ab as [a b]; unfold scale_ab; ring. Qed.

Lemma _f99uv_0 wave r_v : _f99uv wave 0 r_v = 0.
Proof. unfold _f99uv; cbv zeta; ring. Qed.

Lemma _f99uv_linear c wave a_v r_v :
  _f99uv wave (c * a_v) r_v = c * _f99uv wave a_v r_v.
Proof. unfold _f99uv; cbv zeta; ring. Qed.

Lemma fm07uv_sample_linear c a_v wi :
  fm07uv_sample (c * a_v) wi = c * fm07uv_sample a_v wi.
Proof. unfold fm07uv_sample; cbv zeta; ring. Qed.

Lemma map_const_repeat {A : Type} (f : A -> R) (v : R) (l : list A) :
  (forall a, f a = v) -> map f l = repeat v (length l).
Proof.
  intros Hf; induction l as [|a l IH]; simpl; [reflexivity|].
  rewrite Hf, IH; reflexivity.
Qed.

Lemma call_0 (self : F99Extinction spline) wave :
  __call__ spleval self wave 0 = repeat 0 (length wave).
Proof.
  rewrite call_as_map. apply map_const_repeat. intros w.
  destruct (Rlt_dec 2700 w); [unfold Rdiv; ring | apply _f99uv_0].
Qed.

Lemma call_linear (self : F99Extinction spline) wave c a_v :
  __call__ spleval self wave (c * a_v) =
  map (Rmult c) (__call__ spleval self wave a_v).
Proof.
  rewrite !call_as_map, map_map. apply map_ext. intros w.
  destruct (Rlt_dec 2700 w); [unfold Rdiv; ring | apply _f99uv_linear].
Qed.

(** C8.  With A_V = 0 and a nonzero R_V every law returns an array of
    zeros, one per input sample, for every array of positive wavenumbers or
    wavelengths: CCM89 and OD94 in both unit forms, GCC09, and F99 on both
    sides of 2700 Angstroms. *)
Theorem zero_a_v_gives_zeros (self : F99Extinction spline)
  (Hself : r_v self <> 0) (x wave : list R) (r_v : R)
  (Hx : Forall (fun xi => 0 < xi) x) (Hwave : Forall (fun wi => 0 < wi) wave)
  (Hrv : r_v <> 0) :
  ccm89_invum x 0 r_v = repeat 0 (length x) /\
  ccm89_aa wave 0 r_v = repeat 0 (length wave) /\
  od94_invum x 0 r_v = repeat 0 (length x) /\
  od94_aa wave 0 r_v = repeat 0 (length wave) /\
  gcc09_aa wave 0 r_v = repeat 0 (length wave) /\
  __call__ spleval self wave 0 = repeat 0 (length wave).
Proof.
  unfold ccm89_invum, ccm89_aa, od94_invum, od94_aa, gcc09_aa.
  repeat split;
    try (apply map_const_repeat; intros a; apply scale_ab_0).
  apply call_0.
Qed.

(** C10, in exact arithmetic.  Every law is homogeneous in A_V: for
    positive wavenumbers and wavelengths and a nonzero R_V, evaluating with
    [c * a_v] gives, sample by sample, [c] times the result of evaluating with
    [a_v], the numbers being real numbers.  This holds for CCM89 and OD94 in
    both unit forms, for GCC09, for F99 on both sides of 2700 Angstroms, and
    for [_fm07uv].  In doubles the two sides are equal up to rounding only. *)
Theorem output_linear_in_a_v (self : F99Extinction spline)
  (Hself : r_v self <> 0) (x wave : list R) (c a_v r_v : R)
  (Hx : Forall (fun xi => 0 < xi) x) (Hwave : Forall (fun wi => 0 < wi) wave)
  (Hrv : r_v <> 0) :
  ccm89_invum x (c * a_v) r_v = map (Rmult c) (ccm89_invum x a_v r_v) /\
  ccm89_aa wave (c * a_v) r_v = map (Rmult c) (ccm89_aa wave a_v r_v) /\
  od94_invum x (c * a_v) r_v = map (Rmult c) (od94_invum x a_v r_v) /\
  od94_aa wave (c * a_v) r_v = map (Rmult c) (od94_aa wave a_v r_v) /\
  gcc09_aa wave (c * a_v) r_v = map (Rmult c) (gcc09_aa wave a_v r_v) /\
  __call__ spleval self wave (c * a_v) =
    map (Rmult c) (__call__ spleval self wave a_v) /\
  _fm07uv wave (c * a_v) = map (Rmult c) (_fm07uv wave a_v) /\
  (forall w, 0 < w -> _f99uv w (c * a_v) r_v = c * _f99uv w a_v r_v).
Proof.
  unfold ccm89_invum, ccm89_aa, od94_invum, od94_aa, gcc09_aa, _fm07uv.
  rewrite !map_map.
  repeat split;
    try (apply map_ext; intros a; apply scale_ab_linear).
  - apply call_linear.
  - apply map_ext; intros a; apply fm07uv_sample_linear.
  - intros w Hw; apply _f99uv_linear.
Qed.

End F99Properties.

(** ** Continuity across 2700 Angstroms *)

Lemma continuity_pt_near (f : R -> R) (x0 : R) :
  continuity_pt f x0 ->
  forall eps, 0 < eps ->
  exists d, 0 < d /\ forall x, Rabs (x - x0) < d -> Rabs (f x - f x0) < eps.
Proof.
  intros Hc eps He.
  destruct (Hc eps He) as (d & Hd & H).
  exists d; split; [lra|].
  intros x Hx. destruct (Req_dec x0 x) as [-> | Hne].
  - rewrite Rminus_diag, Rabs_R0. exact He.
  - apply (H x). split; [split; [exact I | exact Hne] | exact Hx].
Qed.

(** Two functions that are continuous at [w0] and equal there stay within
    [eps] of each other near [w0]. *)
Lemma meet_continuously (hi lo : R -> R) (w0 : R) :
  continuity_pt hi w0 -> continuity_pt lo w0 -> hi w0 = lo w0 ->
  forall eps, 0 < eps ->
  exists d, 0 < d /\
    forall w1 w2, Rabs (w1 - w0) < d -> Rabs (w2 - w0) < d ->
                  Rabs (hi w1 - lo w2) < eps.
Proof.
  intros Hhi Hlo Heq eps He.
  destruct (continuity_pt_near hi w0 Hhi (eps / 2)) as (d1 & Hd1 & H1); [lra|].
  destruct (continuity_pt_near lo w0 Hlo (eps / 2)) as (d2 & Hd2 & H2); [lra|].
  exists (Rmin d1 d2); split; [apply Rmin_pos; assumption|].
  intros w1 w2 Hw1 Hw2.
  assert (Hw1' : Rabs (w1 - w0) < d1)
    by (eapply Rlt_le_trans; [exact Hw1 | apply Rmin_l]).
  assert (Hw2' : Rabs (w2 - w0) < d2)
    by (eapply Rlt_le_trans; [exact Hw2 | apply Rmin_r]).
  specialize (H1 w1 Hw1'). specialize (H2 w2 Hw2').
  replace (hi w1 - lo w2) with ((hi w1 - hi w0) + - (lo w2 - lo w0))
    by (rewrite Heq; ring).
  eapply Rle_lt_trans; [apply Rabs_triang|].
  rewrite Rabs_Ropp. lra.
Qed.

(** The analytic formula, without its correction term, is continuous in the
    wavelength at 2700 Angstroms. *)
Lemma uv_formula_continuous a_v r_v :
  continuity_pt (fun w => a_v * (1 + f99_kbase r_v (1e4 / w) / r_v)) 2700.
Proof.
  unfold f99_kbase, f99_uvknot; cbv zeta.
  reg.
  - unfold F99_X02, F99_GAMMA2, F99_X0, F99_GAMMA. lra.
  - lra.
Qed.

(** The optical/IR adjustment of a function [f] of the wavenumber is
    continuous in the wavelength at 2700 Angstroms when [f] is continuous at
    [1e4/2700]. *)
Lemma spline_formula_continuous (f : R -> R) a_v r_v :
  continuity_pt f (1e4 / 2700) ->
  continuity_pt (fun w => a_v / r_v * (f (1e4 / w) + r_v)) 2700.
Proof.
  intros Hf.
  change (continuity_pt
            (mult_real_fct (a_v / r_v)
               (plus_fct (comp f (fun w => 1e4 / w)) (fct_cte r_v))) 2700).
  apply continuity_pt_scal, continuity_pt_plus.
  - apply continuity_pt_comp; [reg; lra | exact Hf].
  - apply continuity_pt_const. intros x y; reflexivity.
Qed.

(** Knot 7 of the table: its abscissa is the wavenumber of 2700 Angstroms
    and its value is the [k] of [_f99uv] there. *)
Lemma knot7_abscissa : xknot _XKNOTS 7 = 1e4 / 2700.
Proof. reflexivity. Qed.

Lemma knot7_value r_v :
  nth 7 (_f99kknots _XKNOTS r_v) 0 = f99_kbase r_v (1e4 / 2700).
Proof. reflexivity. Qed.

(** For one [k] the two sides of [__call__] compute the same magnitude. *)
Lemma branches_agree_on_k a_v r_v k :
  r_v <> 0 -> a_v / r_v * (k + r_v) = a_v * (1 + k / r_v).
Proof. intros H; field; exact H. Qed.

Lemma wavenumber_below_C5 w : 1700 < w -> 1e4 / w <= 5.9.
Proof.
  intros Hw.
  assert (Hi : 0 < / w) by (apply Rinv_0_lt_compat; lra).
  assert (H1 : w * / w = 1) by (apply Rinv_r; lra).
  unfold Rdiv. nra.
Qed.

Section F99Continuity.

Variable spline : Type.
Variable splmake : list R -> list R -> nat -> spline.
Variable spleval : spline -> R -> R.

(** C2, as the code has it.  For every R_V other than 0 and every A_V the
    output of [__call__] is continuous across 2700 Angstroms, when the SciPy
    spline of the instance passes through knot 7 and is continuous there.
    Knot 7 has the abscissa [1e4/2700] and the [k] the analytic formula has
    there, so the optical/IR adjustment of the spline value at the knot is
    exactly [_f99uv] at 2700.  Hence for every tolerance [eps > 0], 1e-3
    among them, there is a distance [delta > 0] such that on every grid
    [w_lo <= 2700 < w_hi] within [delta] of 2700 the call returns the analytic
    value for [w_lo] and the adjusted spline value for [w_hi], and the two
    differ by less than [eps].  The distance depends on [a_v], [r_v] and the
    spline: no grid spacing gives 1e-3 for every [a_v]. *)
Theorem f99_continuous_across_2700 (r_v a_v eps : R) :
  let self := __init__ splmake r_v in
  r_v <> 0 -> 0 < eps ->
  spleval (_spline self) (xknot _XKNOTS 7) = nth 7 (_f99kknots _XKNOTS r_v) 0 ->
  continuity_pt (spleval (_spline self)) (xknot _XKNOTS 7) ->
  a_v / r_v * (spleval (_spline self) (1e4 / 2700) + r_v) =
    _f99uv 2700 a_v r_v /\
  exists delta, 0 < delta /\
    forall w_lo w_hi,
      2700 - delta < w_lo <= 2700 -> 2700 < w_hi < 2700 + delta ->
      exists v_lo v_hi,
        __call__ spleval self [w_lo; w_hi] a_v = [v_lo; v_hi] /\
        v_lo = _f99uv w_lo a_v r_v /\
        v_hi = a_v / r_v * (spleval (_spline self) (1e4 / w_hi) + r_v) /\
        Rabs (v_hi - v_lo) < eps.
Proof.
  intros self Hrv Heps Hknot Hcont.
  rewrite knot7_abscissa in Hknot, Hcont. rewrite knot7_value in Hknot.
  split.
  { rewrite Hknot, _f99uv_below by lra. apply branches_agree_on_k; exact Hrv. }
  destruct (meet_continuously
              (fun w => a_v / r_v * (spleval (_spline self) (1e4 / w) + r_v))
              (fun w => a_v * (1 + f99_kbase r_v (1e4 / w) / r_v))
              2700) with (eps := eps) as (d & Hd & Hnear).
  - apply spline_formula_continuous; exact Hcont.
  - apply uv_formula_continuous.
  - cbv beta. rewrite Hknot. apply branches_agree_on_k; exact Hrv.
  - exact Heps.
  - exists (Rmin d 1000). split; [apply Rmin_pos; lra|].
    intros w_lo w_hi Hlo Hhi.
    pose proof (Rmin_l d 1000) as Hl. pose proof (Rmin_r d 1000) as Hr.
    exists (_f99uv w_lo a_v r_v),
           (a_v / r_v * (spleval (_spline self) (1e4 / w_hi) + r_v)).
    split.
    { rewrite call_as_map. simpl.
      destruct (Rlt_dec 2700 w_lo) as [Habs | _]; [lra|].
      destruct (Rlt_dec 2700 w_hi) as [_ | Habs]; [|lra].
      reflexivity. }
    split; [reflexivity|]. split; [reflexivity|].
    rewrite _f99uv_below by (apply wavenumber_below_C5; lra).
    apply Hnear; apply Rabs_def1; lra.
Qed.

End F99Continuity.

(** ** The properties at concrete inputs *)

(** C1, as the specification words it, fails: were a sample at exactly 2700
    Angstroms on the spline side, its value would be the scaled spline value
    for every spline; with R_V = 3.1, A_V = 1 and a spline that is 0 at
    [1e4/2700] that value is 1, and [__call__] returns [_f99uv 2700 1 3.1],
    which is not 1. *)
Lemma f99_boundary_2700_not_on_spline_side :
  ~ (forall (spline : Type) (splmake : list R -> list R -> nat -> spline)
            (spleval : spline -> R -> R),
       __call__ spleval (__init__ splmake 3.1) [2700] 1 =
       [1 / 3.1 * (spleval (_spline (__init__ splmake 3.1)) (1e4 / 2700) + 3.1)]).
Proof.
  intros H. specialize (H unit zero_splmake zero_spleval).
  rewrite call_uv_side in H by lra.
  injection H as H. revert H.
  unfold zero_spleval, __init__; simpl r_v.
  unfold _f99uv, F99_C5, F99_X02, F99_GAMMA2, F99_X0, F99_GAMMA, F99_C3, F99_C4.
  cbv zeta.
  destruct (Rle_dec 5.9 (1e4 / 2700)); [lra|].
  lra.
Qed.

Lemma zero_a_v_gives_zeros_at_3_1 :
  ccm89_invum [0.5; 2; 5; 9] 0 3.1 = repeat 0 4 /\
  ccm89_aa [5500; 2000] 0 3.1 = repeat 0 2 /\
  od94_invum [0.5; 2; 5; 9] 0 3.1 = repeat 0 4 /\
  od94_aa [5500; 2000] 0 3.1 = repeat 0 2 /\
  gcc09_aa [5500; 2000] 0 3.1 = repeat 0 2 /\
  __call__ zero_spleval (__init__ zero_splmake 3.1) [5500; 2000] 0 = repeat 0 2.
Proof.
  apply (zero_a_v_gives_zeros unit zero_spleval (__init__ zero_splmake 3.1)).
  - simpl; lra.
  - repeat constructor; lra.
  - repeat constructor; lra.
  - lra.
Defined.

Lemma output_linear_in_a_v_at_3_1 :
  ccm89_invum [0.5; 2; 5; 9] (3 * 1.5) 3.1 =
    map (Rmult 3) (ccm89_invum [0.5; 2; 5; 9] 1.5 3.1) /\
  ccm89_aa [5500; 2000] (3 * 1.5) 3.1 =
    map (Rmult 3) (ccm89_aa [5500; 2000] 1.5 3.1) /\
  od94_invum [0.5; 2; 5; 9] (3 * 1.5) 3.1 =
    map (Rmult 3) (od94_invum [0.5; 2; 5; 9] 1.5 3.1) /\
  od94_aa [5500; 2000] (3 * 1.5) 3.1 =
    map (Rmult 3) (od94_aa [5500; 2000] 1.5 3.1) /\
  gcc09_aa [5500; 2000] (3 * 1.5) 3.1 =
    map (Rmult 3) (gcc09_aa [5500; 2000] 1.5 3.1) /\
  __call__ zero_spleval (__init__ zero_splmake 3.1) [5500; 2000] (3 * 1.5) =
    map (Rmult 3)
        (__call__ zero_spleval (__init__ zero_splmake 3.1) [5500; 2000] 1.5) /\
  _fm07uv [5500; 2000] (3 * 1.5) = map (Rmult 3) (_fm07uv [5500; 2000] 1.5) /\
  (forall w, 0 < w -> _f99uv w (3 * 1.5) 3.1 = 3 * _f99uv w 1.5 3.1).
Proof.
  apply (output_linear_in_a_v unit zero_spleval (__init__ zero_splmake 3.1)).
  - simpl; lra.
  - repeat constructor; lra.
  - repeat constructor; lra.
  - lra.
Defined.

(** C10, as it is worded, fails in the arithmetic of the code.  With the
    wavelength 2000, R_V = 3.1, A_V = 1.5 and c = 3 (so that [c * a_v] is the
    double 4.5 exactly) [_f99uv] returns 12.43015240176295 for [c * a_v] and
    [c] times its result for [a_v] is 12.430152401762951: the two doubles
    differ in the last bit. *)
Lemma f99uv_not_homogeneous_in_doubles :
  (3 * 1.5 = 4.5)%float /\
  Double._f99uv 2000 (3 * 1.5) 3.1 = 0x1.8dc3cef83bc46p+3%float /\
  (3 * Double._f99uv 2000 1.5 3.1 = 0x1.8dc3cef83bc47p+3)%float /\
  (Double._f99uv 2000 (3 * 1.5) 3.1 =? 3 * Double._f99uv 2000 1.5 3.1)%float
    = false.
Proof. repeat split; vm_compute; reflexivity. Qed.

Lemma line_spleval_continuous (s : R * R * R) (x : R) :
  continuity_pt (line_spleval s) x.
Proof.
  destruct s as [[x7 k7] m]. unfold line_spleval. reg.
Qed.

Lemma f99_continuous_across_2700_at_3_1 :
  1 / 3.1 * (line_spleval (_spline (__init__ line_splmake 3.1)) (1e4 / 2700)
             + 3.1) = _f99uv 2700 1 3.1 /\
  exists delta, 0 < delta /\
    forall w_lo w_hi,
      2700 - delta < w_lo <= 2700 -> 2700 < w_hi < 2700 + delta ->
      exists v_lo v_hi,
        __call__ line_spleval (__init__ line_splmake 3.1) [w_lo; w_hi] 1 =
          [v_lo; v_hi] /\
        v_lo = _f99uv w_lo 1 3.1 /\
        v_hi = 1 / 3.1 * (line_spleval (_spline (__init__ line_splmake 3.1))
                            (1e4 / w_hi) + 3.1) /\
        Rabs (v_hi - v_lo) < 1e-3.
Proof.
  apply (f99_continuous_across_2700 (R * R * R) line_splmake line_spleval
           3.1 1 1e-3).
  - lra.
  - lra.
  - unfold __init__, line_splmake, line_spleval, xknot; simpl. ring.
  - apply line_spleval_continuous.
Defined.

(** C2, as the specification words it, fails: the bound 1e-3 does not hold
    for every A_V on a grid that straddles 2700 Angstroms.  With R_V = 3.1 and
    A_V = 2 there is no spline, continuous at knot 7 and passing through it,
    for which every grid [2699 <= w_lo <= 2700 < w_hi <= 2701] gives values
    less than 1e-3 apart: [_f99uv] at 2699 and at 2700 are more than 1.5e-3
    apart, and the spline side just above 2700 is as close to the value at
    2700 as one likes. *)
Lemma f99_1e_3_fails_on_a_1_angstrom_grid :
  ~ (exists (spline : Type) (splmake : list R -> list R -> nat -> spline)
            (spleval : spline -> R -> R),
       spleval (_spline (__init__ splmake 3.1)) (xknot _XKNOTS 7) =
         nth 7 (_f99kknots _XKNOTS 3.1) 0 /\
       continuity_pt (spleval (_spline (__init__ splmake 3.1)))
                     (xknot _XKNOTS 7) /\
       forall w_lo w_hi v_lo v_hi,
         2699 <= w_lo <= 2700 -> 2700 < w_hi <= 2701 ->
         __call__ spleval (__init__ splmake 3.1) [w_lo; w_hi] 2 = [v_lo; v_hi] ->
         Rabs (v_hi - v_lo) < 1e-3).
Proof.
  intros (spline & splmake & spleval & Hknot & Hcont & Hbound).
  rewrite knot7_abscissa in Hknot, Hcont. rewrite knot7_value in Hknot.
  set (s := _spline (__init__ splmake 3.1)) in *.
  set (S := fun w => 2 / 3.1 * (spleval s (1e4 / w) + 3.1)).
  assert (HS : continuity_pt S 2700)
    by (apply spline_formula_continuous; exact Hcont).
  assert (HS0 : S 2700 = _f99uv 2700 2 3.1).
  { unfold S. rewrite Hknot, _f99uv_below by lra.
    apply branches_agree_on_k; lra. }
  destruct (continuity_pt_near S 2700 HS 5e-4) as (d & Hd & Hnear); [lra|].
  pose proof (Rmin_l d 1) as Hl. pose proof (Rmin_r d 1) as Hr.
  assert (Hm : 0 < Rmin d 1) by (apply Rmin_pos; lra).
  set (w_hi := 2700 + Rmin d 1 / 2).
  assert (Hw : Rabs (S w_hi - S 2700) < 5e-4).
  { apply Hnear. unfold w_hi. apply Rabs_def1; lra. }
  assert (Hgrid : Rabs (S w_hi - _f99uv 2699 2 3.1) < 1e-3).
  { apply (Hbound 2699 w_hi); [lra | unfold w_hi; lra |].
    rewrite call_as_map. simpl.
    destruct (Rlt_dec 2700 2699) as [Habs | _]; [lra|].
    destruct (Rlt_dec 2700 w_hi) as [_ | Habs]; [|unfold w_hi in Habs; lra].
    reflexivity. }
  assert (Hgap : 1.5e-3 < _f99uv 2699 2 3.1 - _f99uv 2700 2 3.1).
  { unfold _f99uv, F99_C5, F99_X02, F99_GAMMA2, F99_X0, F99_GAMMA, F99_C3,
      F99_C4; cbv zeta.
    destruct (Rle_dec 5.9 (1e4 / 2699)); [lra|].
    destruct (Rle_dec 5.9 (1e4 / 2700)); [lra|].
    lra. }
  rewrite HS0 in Hw.
  apply Rabs_def2 in Hw. apply Rabs_def2 in Hgrid. lra.
Qed.

(** ** Further properties of the code *)

(** The knot table of F99 has nine abscissae in strictly increasing order,
    starting at the wavenumber 0, and [_f99kknots] returns nine values. *)
Theorem f99_knot_table_shape (r_v : R) :
  length _XKNOTS = 9%nat /\
  length (_f99kknots _XKNOTS r_v) = 9%nat /\
  xknot _XKNOTS 0 = 0 /\
  forall i, (i < 8)%nat -> xknot _XKNOTS i < xknot _XKNOTS (S i).
Proof.
  split; [reflexivity|]. split; [reflexivity|]. split; [reflexivity|].
  intros i Hi.
  do 8 (destruct i as [|i]; [unfold xknot; simpl; lra|]).
  exfalso. apply PeanoNat.Nat.succ_lt_mono in Hi.
  do 7 (apply PeanoNat.Nat.succ_lt_mono in Hi).
  inversion Hi.
Qed.

(** The two ultraviolet knots carry the [k] of the analytic formula at 2700
    and 2600 Angstroms, so that with a nonzero R_V the optical/IR adjustment
    of knot 7 is exactly [_f99uv] at 2700 Angstroms. *)
Theorem f99_knot7_meets_analytic_uv (a_v r_v : R) (Hrv : r_v <> 0) :
  nth 7 (_f99kknots _XKNOTS r_v) 0 = f99_kbase r_v (1e4 / 2700) /\
  nth 8 (_f99kknots _XKNOTS r_v) 0 = f99_kbase r_v (1e4 / 2600) /\
  a_v / r_v * (nth 7 (_f99kknots _XKNOTS r_v) 0 + r_v) = _f99uv 2700 a_v r_v.
Proof.
  split; [reflexivity|]. split; [reflexivity|].
  rewrite _f99uv_below by lra.
  rewrite knot7_value. apply branches_agree_on_k; exact Hrv.
Qed.

Lemma f99_knot7_meets_analytic_uv_at_3_1 :
  nth 7 (_f99kknots _XKNOTS 3.1) 0 = f99_kbase 3.1 (1e4 / 2700) /\
  nth 8 (_f99kknots _XKNOTS 3.1) 0 = f99_kbase 3.1 (1e4 / 2600) /\
  1 / 3.1 * (nth 7 (_f99kknots _XKNOTS 3.1) 0 + 3.1) = _f99uv 2700 1 3.1.
Proof.
  apply (f99_knot7_meets_analytic_uv 1 3.1). lra.
Defined.

(** ** Continuity of the branch functions *)

Lemma near_continuity_pt (f : R -> R) (x0 : R) :
  (forall eps, 0 < eps ->
     exists d, 0 < d /\ forall x, Rabs (x - x0) < d -> Rabs (f x - f x0) < eps) ->
  continuity_pt f x0.
Proof.
  intros H eps He. destruct (H eps He) as (d & Hd & Hx).
  exists d. split; [exact Hd|]. intros x [_ Hdist]. apply Hx. exact Hdist.
Qed.

(** A function that is [g] up to [c] and [g + h] after it, or the other way
    round, is continuous at [c] when [g] and [h] are and [h c = 0]. *)
Lemma continuity_pt_glue (f g h : R -> R) (c : R) :
  (forall x, f x = g x \/ f x = g x + h x) ->
  continuity_pt g c -> continuity_pt h c -> h c = 0 ->
  continuity_pt f c.
Proof.
  intros Hf Hg Hh Hc. apply near_continuity_pt. intros eps He.
  destruct (continuity_pt_near g c Hg (eps / 2)) as (d1 & Hd1 & H1); [lra|].
  destruct (continuity_pt_near h c Hh (eps / 2)) as (d2 & Hd2 & H2); [lra|].
  exists (Rmin d1 d2). split; [apply Rmin_pos; assumption|].
  intros x Hx.
  assert (Hx1 : Rabs (x - c) < d1)
    by (eapply Rlt_le_trans; [exact Hx | apply Rmin_l]).
  assert (Hx2 : Rabs (x - c) < d2)
    by (eapply Rlt_le_trans; [exact Hx | apply Rmin_r]).
  specialize (H1 x Hx1). specialize (H2 x Hx2). rewrite Hc, Rminus_0_r in H2.
  assert (Hfc : f c = g c) by (destruct (Hf c) as [E | E]; rewrite E; lra).
  rewrite Hfc.
  destruct (Hf x) as [E | E]; rewrite E.
  - lra.
  - replace (g x + h x - g c) with ((g x - g c) + h x) by ring.
    eapply Rle_lt_trans; [apply Rabs_triang|]. lra.
Qed.

Lemma continuity_pt_left_of (f g : R -> R) (c x : R) :
  x < c -> (forall y, y < c -> f y = g y) ->
  continuity_pt g x -> continuity_pt f x.
Proof.
  intros Hx Hfg Hg.
  apply (continuity_pt_locally_ext g f (c - x) x); [lra | | exact Hg].
  intros y Hy. symmetry. apply Hfg.
  unfold Rdist in Hy. apply Rabs_def2 in Hy. lra.
Qed.

Lemma continuity_pt_right_of (f g : R -> R) (c x : R) :
  c < x -> (forall y, c < y -> f y = g y) ->
  continuity_pt g x -> continuity_pt f x.
Proof.
  intros Hx Hfg Hg.
  apply (continuity_pt_locally_ext g f (x - c) x); [lra | | exact Hg].
  intros y Hy. symmetry. apply Hfg.
  unfold Rdist in Hy. apply Rabs_def2 in Hy. lra.
Qed.

(** The function is [g] on [x <= c] and [g + h] on [c < x]. *)
Lemma continuity_two_pieces (f g h : R -> R) (c : R) :
  (forall x, x <= c -> f x = g x) ->
  (forall x, c < x -> f x = g x + h x) ->
  continuity g -> continuity h -> h c = 0 ->
  continuity f.
Proof.
  intros Hlo Hhi Hg Hh Hc x.
  destruct (Rtotal_order x c) as [Hx | [-> | Hx]].
  - apply (continuity_pt_left_of f g c x Hx); [|apply Hg].
    intros y Hy; apply Hlo; lra.
  - apply (continuity_pt_glue f g h c); [| apply Hg | apply Hh | exact Hc].
    intros y. destruct (Rle_dec y c) as [Hy | Hy];
      [left; apply Hlo; exact Hy | right; apply Hhi; lra].
  - apply (continuity_pt_right_of f (fun y => g y + h y) c x Hx Hhi).
    apply (continuity_pt_plus g h x); [apply Hg | apply Hh].
Qed.

Lemma ccm89_uv_base_continuous :
  continuity (fun x => fst (ccm89_uv_base x)) /\
  continuity (fun x => snd (ccm89_uv_base x)).
Proof.
  unfold ccm89_uv_base; simpl fst; simpl snd.
  split; intros x; reg; sq_plus_pos.
Qed.

Lemma ccm89_uv_extra_continuous :
  continuity (fun x => fst (ccm89_uv_extra x)) /\
  continuity (fun x => snd (ccm89_uv_extra x)).
Proof.
  unfold ccm89_uv_extra; cbv zeta; simpl fst; simpl snd.
  split; intros x; reg.
Qed.

Lemma gcc09_uv_base_continuous :
  continuity (fun x => fst (gcc09_uv_base x)) /\
  continuity (fun x => snd (gcc09_uv_base x)).
Proof.
  unfold gcc09_uv_base; simpl fst; simpl snd.
  split; intros x; reg; sq_plus_pos.
Qed.

Lemma gcc09_uv_extra_continuous :
  continuity (fun x => fst (gcc09_uv_extra x)) /\
  continuity (fun x => snd (gcc09_uv_extra x)).
Proof.
  unfold gcc09_uv_extra; cbv zeta; simpl fst; simpl snd.
  split; intros x; reg.
Qed.

Lemma ccm89ab_uv_invum_continuous :
  continuity (fun x => fst (ccm89ab_uv_invum x)) /\
  continuity (fun x => snd (ccm89ab_uv_invum x)).
Proof.
  destruct ccm89_uv_base_continuous as [Hb1 Hb2].
  destruct ccm89_uv_extra_continuous as [He1 He2].
  split.
  - apply (continuity_two_pieces _ _ _ 5.9) with (3 := Hb1) (4 := He1).
    + intros x Hx. rewrite ccm89ab_uv_invum_below by exact Hx. reflexivity.
    + intros x Hx. rewrite ccm89ab_uv_invum_above by exact Hx. reflexivity.
    + unfold ccm89_uv_extra; cbv zeta; simpl fst; ring.
  - apply (continuity_two_pieces _ _ _ 5.9) with (3 := Hb2) (4 := He2).
    + intros x Hx. rewrite ccm89ab_uv_invum_below by exact Hx. reflexivity.
    + intros x Hx. rewrite ccm89ab_uv_invum_above by exact Hx. reflexivity.
    + unfold ccm89_uv_extra; cbv zeta; simpl snd; ring.
Qed.

Lemma gcc09ab_uv_invum_continuous :
  continuity (fun x => fst (gcc09ab_uv_invum x)) /\
  continuity (fun x => snd (gcc09ab_uv_invum x)).
Proof.
  destruct gcc09_uv_base_continuous as [Hb1 Hb2].
  destruct gcc09_uv_extra_continuous as [He1 He2].
  split.
  - apply (continuity_two_pieces _ _ _ 5.9) with (3 := Hb1) (4 := He1).
    + intros x Hx. rewrite gcc09ab_uv_invum_below by exact Hx. reflexivity.
    + intros x Hx. rewrite gcc09ab_uv_invum_above by exact Hx. reflexivity.
    + unfold gcc09_uv_extra; cbv zeta; simpl fst; ring.
  - apply (continuity_two_pieces _ _ _ 5.9) with (3 := Hb2) (4 := He2).
    + intros x Hx. rewrite gcc09ab_uv_invum_below by exact Hx. reflexivity.
    + intros x Hx. rewrite gcc09ab_uv_invum_above by exact Hx. reflexivity.
    + unfold gcc09_uv_extra; cbv zeta; simpl snd; ring.
Qed.

Lemma ccm89ab_opt_invum_continuous :
  continuity (fun x => fst (ccm89ab_opt_invum x)) /\
  continuity (fun x => snd (ccm89ab_opt_invum x)).
Proof.
  unfold ccm89ab_opt_invum; cbv zeta; simpl fst; simpl snd.
  split; intros x; reg.
Qed.

Lemma od94ab_opt_invum_continuous :
  continuity (fun x => fst (od94ab_opt_invum x)) /\
  continuity (fun x => snd (od94ab_opt_invum x)).
Proof.
  unfold od94ab_opt_invum; cbv zeta; simpl fst; simpl snd.
  split; intros x; reg.
Qed.

Lemma ccm89ab_fuv_invum_continuous :
  continuity (fun x => fst (ccm89ab_fuv_invum x)) /\
  continuity (fun x => snd (ccm89ab_fuv_invum x)).
Proof.
  unfold ccm89ab_fuv_invum; cbv zeta; simpl fst; simpl snd.
  split; intros x; reg.
Qed.

Lemma Rpower_continuous_pt x y :
  0 < x -> continuity_pt (fun x => Rpower x y) x.
Proof.
  intros Hx. apply derivable_continuous_pt.
  exists (y * Rpower x (y - 1)). apply derivable_pt_lim_power. exact Hx.
Qed.

Lemma ccm89ab_ir_invum_continuous x :
  0 < x ->
  continuity_pt (fun x => fst (ccm89ab_ir_invum x)) x /\
  continuity_pt (fun x => snd (ccm89ab_ir_invum x)) x.
Proof.
  intros Hx. unfold ccm89ab_ir_invum; cbv zeta; simpl fst; simpl snd.
  pose proof (Rpower_continuous_pt x 1.61 Hx) as Hp.
  split.
  - apply (continuity_pt_scal _ 0.574 x Hp).
  - apply (continuity_pt_scal _ (-0.527) x Hp).
Qed.

Lemma continuity_pt_between (f g : R -> R) (a b x : R) :
  a < x < b -> (forall y, a < y < b -> f y = g y) ->
  continuity_pt g x -> continuity_pt f x.
Proof.
  intros Hx Hfg Hg.
  apply (continuity_pt_locally_ext g f (Rmin (x - a) (b - x)) x);
    [apply Rmin_pos; lra | | exact Hg].
  intros y Hy. symmetry. apply Hfg.
  pose proof (Rmin_l (x - a) (b - x)). pose proof (Rmin_r (x - a) (b - x)).
  unfold Rdist in Hy. apply Rabs_def2 in Hy. lra.
Qed.

Lemma scale_ab_fst_snd a_v r_v ab :
  scale_ab a_v r_v ab = a_v * (fst ab + / r_v * snd ab).
Proof. destruct ab as [a b]; unfold scale_ab; simpl; unfold Rdiv; ring. Qed.

Lemma scale_ab_continuous_pt (F : R -> R * R) a_v r_v x :
  continuity_pt (fun x => fst (F x)) x ->
  continuity_pt (fun x => snd (F x)) x ->
  continuity_pt (fun x => scale_ab a_v r_v (F x)) x.
Proof.
  intros H1 H2.
  apply (continuity_pt_between _
           (mult_real_fct a_v
              (plus_fct (fun x => fst (F x))
                        (mult_real_fct (/ r_v) (fun x => snd (F x)))))
           (x - 1) (x + 1)); [lra | |].
  - intros y _. apply scale_ab_fst_snd.
  - apply continuity_pt_scal, continuity_pt_plus;
      [exact H1 | apply continuity_pt_scal; exact H2].
Qed.

(** A function that agrees just below [c] with a function continuous at
    [c], but takes another value at [c], is not continuous at [c]. *)
Lemma jump_not_continuous (f lo : R -> R) (c d : R) :
  0 < d -> (forall x, c - d < x < c -> f x = lo x) ->
  continuity_pt lo c -> lo c <> f c -> ~ continuity_pt f c.
Proof.
  intros Hd Hlo Hcont Hne Hf.
  assert (He : 0 < Rabs (lo c - f c) / 2).
  { assert (0 < Rabs (lo c - f c)) by (apply Rabs_pos_lt; lra). lra. }
  destruct (continuity_pt_near f c Hf _ He) as (d1 & Hd1 & H1).
  destruct (continuity_pt_near lo c Hcont _ He) as (d2 & Hd2 & H2).
  set (m := Rmin d (Rmin d1 d2)).
  assert (Hm : 0 < m) by (repeat apply Rmin_pos; assumption).
  assert (Hmd : m <= d) by apply Rmin_l.
  assert (Hm1 : m <= d1)
    by (eapply Rle_trans; [apply Rmin_r | apply Rmin_l]).
  assert (Hm2 : m <= d2)
    by (eapply Rle_trans; [apply Rmin_r | apply Rmin_r]).
  set (x := c - m / 2).
  assert (Hx : Rabs (x - c) < m).
  { unfold x. apply Rabs_def1; lra. }
  assert (Hfx : f x = lo x) by (apply Hlo; unfold x; lra).
  specialize (H1 x ltac:(lra)). specialize (H2 x ltac:(lra)).
  rewrite Hfx in H1.
  assert (Htri : Rabs (lo c - f c) <= Rabs (lo x - lo c) + Rabs (lo x - f c)).
  { replace (lo c - f c) with (- (lo x - lo c) + (lo x - f c)) by ring.
    eapply Rle_trans; [apply Rabs_triang|]. rewrite Rabs_Ropp. lra. }
  lra.
Qed.

Lemma ccm89_curve_continuous a_v r_v x :
  0 < x -> x <> 1.1 -> x <> 3.3 -> x <> 8 ->
  continuity_pt (fun x => scale_ab a_v r_v (ccm89ab_invum x)) x.
Proof.
  intros H0 H1 H3 H8.
  destruct (Rlt_dec x 1.1) as [L1 | G1];
    [|destruct (Rlt_dec x 3.3) as [L3 | G3];
      [|destruct (Rlt_dec x 8) as [L8 | G8]]].
  - apply (continuity_pt_between _
             (fun y => scale_ab a_v r_v (ccm89ab_ir_invum y)) 0 1.1); [lra | |].
    + intros y Hy. rewrite ccm89ab_invum_ir by lra. reflexivity.
    + apply scale_ab_continuous_pt; apply ccm89ab_ir_invum_continuous; exact H0.
  - apply (continuity_pt_between _
             (fun y => scale_ab a_v r_v (ccm89ab_opt_invum y)) 1.1 3.3); [lra | |].
    + intros y Hy. rewrite ccm89ab_invum_opt by lra. reflexivity.
    + apply scale_ab_continuous_pt; apply ccm89ab_opt_invum_continuous.
  - apply (continuity_pt_between _
             (fun y => scale_ab a_v r_v (ccm89ab_uv_invum y)) 3.3 8); [lra | |].
    + intros y Hy. rewrite ccm89ab_invum_uv by lra. reflexivity.
    + apply scale_ab_continuous_pt; apply ccm89ab_uv_invum_continuous.
  - apply (continuity_pt_between _
             (fun y => scale_ab a_v r_v (ccm89ab_fuv_invum y)) 8 (x + 1)); [lra | |].
    + intros y Hy. rewrite ccm89ab_invum_fuv by lra. reflexivity.
    + apply scale_ab_continuous_pt; apply ccm89ab_fuv_invum_continuous.
Qed.

Lemma od94_curve_continuous a_v r_v x :
  0 < x -> x <> 1.1 -> x <> 3.3 -> x <> 8 ->
  continuity_pt (fun x => scale_ab a_v r_v (od94ab_invum x)) x.
Proof.
  intros H0 H1 H3 H8.
  destruct (Rlt_dec x 1.1) as [L1 | G1];
    [|destruct (Rlt_dec x 3.3) as [L3 | G3];
      [|destruct (Rlt_dec x 8) as [L8 | G8]]].
  - apply (continuity_pt_between _
             (fun y => scale_ab a_v r_v (ccm89ab_ir_invum y)) 0 1.1); [lra | |].
    + intros y Hy. rewrite od94ab_invum_ir by lra. reflexivity.
    + apply scale_ab_continuous_pt; apply ccm89ab_ir_invum_continuous; exact H0.
  - apply (continuity_pt_between _
             (fun y => scale_ab a_v r_v (od94ab_opt_invum y)) 1.1 3.3); [lra | |].
    + intros y Hy. rewrite od94ab_invum_opt by lra. reflexivity.
    + apply scale_ab_continuous_pt; apply od94ab_opt_invum_continuous.
  - apply (continuity_pt_between _
             (fun y => scale_ab a_v r_v (ccm89ab_uv_invum y)) 3.3 8); [lra | |].
    + intros y Hy. rewrite od94ab_invum_uv by lra. reflexivity.
    + apply scale_ab_continuous_pt; apply ccm89ab_uv_invum_continuous.
  - apply (continuity_pt_between _
             (fun y => scale_ab a_v r_v (ccm89ab_fuv_invum y)) 8 (x + 1)); [lra | |].
    + intros y Hy. rewrite od94ab_invum_fuv by lra. reflexivity.
    + apply scale_ab_continuous_pt; apply ccm89ab_fuv_invum_continuous.
Qed.

Lemma gcc09_curve_continuous a_v r_v x :
  0 < x -> x <> 1.1 -> x <> 3.3 ->
  continuity_pt (fun x => scale_ab a_v r_v (gcc09ab_invum x)) x.
Proof.
  intros H0 H1 H3.
  destruct (Rlt_dec x 1.1) as [L1 | G1];
    [|destruct (Rlt_dec x 3.3) as [L3 | G3]].
  - apply (continuity_pt_between _
             (fun y => scale_ab a_v r_v (ccm89ab_ir_invum y)) 0 1.1); [lra | |].
    + intros y Hy. rewrite gcc09ab_invum_ir by lra. reflexivity.
    + apply scale_ab_continuous_pt; apply ccm89ab_ir_invum_continuous; exact H0.
  - apply (continuity_pt_between _
             (fun y => scale_ab a_v r_v (od94ab_opt_invum y)) 1.1 3.3); [lra | |].
    + intros y Hy. rewrite gcc09ab_invum_opt by lra. reflexivity.
    + apply scale_ab_continuous_pt; apply od94ab_opt_invum_continuous.
  - apply (continuity_pt_between _
             (fun y => scale_ab a_v r_v (gcc09ab_uv_invum y)) 3.3 (x + 1)); [lra | |].
    + intros y Hy. rewrite gcc09ab_invum_uv by lra. reflexivity.
    + apply scale_ab_continuous_pt; apply gcc09ab_uv_invum_continuous.
Qed.

Lemma inv_of_ge_1 r : 1 <= r -> 0 < / r <= 1.
Proof.
  intros H. assert (Hp : 0 < / r) by (apply Rinv_0_lt_compat; lra).
  assert (H1 : r * / r = 1) by (apply Rinv_r; lra).
  split; [exact Hp | nra].
Qed.

(** Two [(a, b)] pairs give different magnitudes when they differ for every
    weight [1/r_v] in (0, 1]. *)
Lemma scaled_values_differ a_v r_v (p q : R * R) :
  a_v <> 0 -> 1 <= r_v ->
  (forall t, 0 < t <= 1 -> fst p + t * snd p <> fst q + t * snd q) ->
  scale_ab a_v r_v p <> scale_ab a_v r_v q.
Proof.
  intros Ha Hr Hpq. rewrite !scale_ab_fst_snd. intros H.
  apply Rmult_eq_reg_l in H; [|exact Ha].
  exact (Hpq (/ r_v) (inv_of_ge_1 r_v Hr) H).
Qed.

Lemma ccm89_jump_at_3_3 a_v r_v :
  a_v <> 0 -> 1 <= r_v ->
  ~ continuity_pt (fun x => scale_ab a_v r_v (ccm89ab_invum x)) 3.3.
Proof.
  intros Ha Hr.
  apply (jump_not_continuous _
           (fun y => scale_ab a_v r_v (ccm89ab_opt_invum y)) 3.3 1); [lra | | |].
  - intros y Hy. rewrite ccm89ab_invum_opt by lra. reflexivity.
  - apply scale_ab_continuous_pt; apply ccm89ab_opt_invum_continuous.
  - rewrite ccm89ab_invum_uv by lra. apply scaled_values_differ; [exact Ha | exact Hr |].
    intros t Ht. branch_values. lra.
Qed.

Lemma ccm89_jump_at_8 a_v r_v :
  a_v <> 0 -> 1 <= r_v ->
  ~ continuity_pt (fun x => scale_ab a_v r_v (ccm89ab_invum x)) 8.
Proof.
  intros Ha Hr.
  apply (jump_not_continuous _
           (fun y => scale_ab a_v r_v (ccm89ab_uv_invum y)) 8 1); [lra | | |].
  - intros y Hy. rewrite ccm89ab_invum_uv by lra. reflexivity.
  - apply scale_ab_continuous_pt; apply ccm89ab_uv_invum_continuous.
  - rewrite ccm89ab_invum_fuv by lra. apply scaled_values_differ; [exact Ha | exact Hr |].
    intros t Ht. branch_values. lra.
Qed.

Lemma od94_jump_at_3_3 a_v r_v :
  a_v <> 0 -> 1 <= r_v ->
  ~ continuity_pt (fun x => scale_ab a_v r_v (od94ab_invum x)) 3.3.
Proof.
  intros Ha Hr.
  apply (jump_not_continuous _
           (fun y => scale_ab a_v r_v (od94ab_opt_invum y)) 3.3 1); [lra | | |].
  - intros y Hy. rewrite od94ab_invum_opt by lra. reflexivity.
  - apply scale_ab_continuous_pt; apply od94ab_opt_invum_continuous.
  - rewrite od94ab_invum_uv by lra. apply scaled_values_differ; [exact Ha | exact Hr |].
    intros t Ht. branch_values. lra.
Qed.

Lemma od94_jump_at_8 a_v r_v :
  a_v <> 0 -> 1 <= r_v ->
  ~ continuity_pt (fun x => scale_ab a_v r_v (od94ab_invum x)) 8.
Proof.
  intros Ha Hr.
  apply (jump_not_continuous _
           (fun y => scale_ab a_v r_v (ccm89ab_uv_invum y)) 8 1); [lra | | |].
  - intros y Hy. rewrite od94ab_invum_uv by lra. reflexivity.
  - apply scale_ab_continuous_pt; apply ccm89ab_uv_invum_continuous.
  - rewrite od94ab_invum_fuv by lra. apply scaled_values_differ; [exact Ha | exact Hr |].
    intros t Ht. branch_values. lra.
Qed.

Lemma gcc09_jump_at_3_3 a_v r_v :
  a_v <> 0 -> 1 <= r_v ->
  ~ continuity_pt (fun x => scale_ab a_v r_v (gcc09ab_invum x)) 3.3.
Proof.
  intros Ha Hr.
  apply (jump_not_continuous _
           (fun y => scale_ab a_v r_v (od94ab_opt_invum y)) 3.3 1); [lra | | |].
  - intros y Hy. rewrite gcc09ab_invum_opt by lra. reflexivity.
  - apply scale_ab_continuous_pt; apply od94ab_opt_invum_continuous.
  - rewrite gcc09ab_invum_uv by lra. apply scaled_values_differ; [exact Ha | exact Hr |].
    intros t Ht. branch_values. lra.
Qed.

Lemma wavenumber_le w c : 0 < w -> 0 < c -> 1e4 / c <= w -> 1e4 / w <= c.
Proof.
  intros Hw Hc H.
  assert (Hiw : 0 < / w) by (apply Rinv_0_lt_compat; exact Hw).
  assert (Hic : 0 < / c) by (apply Rinv_0_lt_compat; exact Hc).
  assert (H1 : w * / w = 1) by (apply Rinv_r; lra).
  assert (H2 : c * / c = 1) by (apply Rinv_r; lra).
  unfold Rdiv in *.
  assert (H3 : 1e4 <= w * c) by nra.
  nra.
Qed.

Lemma wavenumber_gt w c : 0 < w -> 0 < c -> w < 1e4 / c -> c < 1e4 / w.
Proof.
  intros Hw Hc H.
  assert (Hiw : 0 < / w) by (apply Rinv_0_lt_compat; exact Hw).
  assert (Hic : 0 < / c) by (apply Rinv_0_lt_compat; exact Hc).
  assert (H1 : w * / w = 1) by (apply Rinv_r; lra).
  assert (H2 : c * / c = 1) by (apply Rinv_r; lra).
  unfold Rdiv in *.
  assert (H3 : w * c < 1e4) by nra.
  nra.
Qed.

Lemma f99_denominator_nonzero x :
  (x * x - F99_X02) * (x * x - F99_X02) + x * x * F99_GAMMA2 <> 0.
Proof.
  pose proof (Rle_0_sqr (x * x - F99_X02)) as H1. unfold Rsqr in H1.
  pose proof (Rle_0_sqr x) as H2. unfold Rsqr in H2.
  unfold F99_X02, F99_GAMMA2, F99_X0, F99_GAMMA in *.
  destruct (Req_dec (x * x) 0) as [E | E].
  - rewrite E in *. lra.
  - nra.
Qed.

Lemma f99_base_continuous a_v r_v w :
  0 < w ->
  continuity_pt (fun w => a_v * (1 + f99_kbase r_v (1e4 / w) / r_v)) w.
Proof.
  intros Hw. unfold f99_kbase, f99_uvknot; cbv zeta.
  reg; [apply f99_denominator_nonzero | lra].
Qed.

Lemma f99_extra_continuous a_v r_v w :
  0 < w ->
  continuity_pt (fun w => a_v * (f99_kextra (1e4 / w) / r_v)) w.
Proof.
  intros Hw. unfold f99_kextra; cbv zeta.
  reg. lra.
Qed.

Lemma _f99uv_continuous a_v r_v w :
  0 < w -> continuity_pt (fun w => _f99uv w a_v r_v) w.
Proof.
  intros Hw.
  set (g := fun w => a_v * (1 + f99_kbase r_v (1e4 / w) / r_v)).
  set (h := fun w => a_v * (f99_kextra (1e4 / w) / r_v)).
  assert (Hlo : forall y, 0 < y -> 1e4 / 5.9 <= y -> _f99uv y a_v r_v = g y).
  { intros y Hy Hge. apply _f99uv_below. apply wavenumber_le; lra. }
  assert (Hhi : forall y, 0 < y < 1e4 / 5.9 -> _f99uv y a_v r_v = g y + h y).
  { intros y Hy. rewrite _f99uv_above by (apply wavenumber_gt; lra).
    unfold g, h, Rdiv. ring. }
  destruct (Rtotal_order w (1e4 / 5.9)) as [Hlt | [-> | Hgt]].
  - apply (continuity_pt_between _ (fun y => g y + h y) 0 (1e4 / 5.9));
      [lra | exact Hhi |].
    apply (continuity_pt_plus g h w);
      [apply f99_base_continuous | apply f99_extra_continuous]; exact Hw.
  - apply (continuity_pt_between _
             (fun y => if Rle_dec (1e4 / 5.9) y then g y else g y + h y)
             0 (1e4 / 5.9 + 1)); [lra | |].
    + intros y Hy. destruct (Rle_dec (1e4 / 5.9) y);
        [apply Hlo; lra | apply Hhi; lra].
    + apply (continuity_pt_glue _ g h).
      * intros y. destruct (Rle_dec (1e4 / 5.9) y); [left | right]; reflexivity.
      * apply f99_base_continuous; lra.
      * apply f99_extra_continuous; lra.
      * unfold h. replace (1e4 / (1e4 / 5.9)) with F99_C5
          by (unfold F99_C5; lra).
        rewrite f99_kextra_at_C5. unfold Rdiv; ring.
  - apply (continuity_pt_between _ g (1e4 / 5.9) (w + 1)); [lra | |].
    + intros y Hy. apply Hlo; lra.
    + apply f99_base_continuous; exact Hw.
Qed.

Lemma fm07_denominator_nonzero x :
  (x * x - FM07_X02) * (x * x - FM07_X02) + x * x * FM07_GAMMA2 <> 0.
Proof.
  pose proof (Rle_0_sqr (x * x - FM07_X02)) as H1. unfold Rsqr in H1.
  pose proof (Rle_0_sqr x) as H2. unfold Rsqr in H2.
  unfold FM07_X02, FM07_GAMMA2, FM07_X0, FM07_GAMMA in *.
  destruct (Req_dec (x * x) 0) as [E | E].
  - rewrite E in *. lra.
  - nra.
Qed.

Lemma fm07uv_sample_continuous a_v w :
  0 < w -> continuity_pt (fun w => fm07uv_sample a_v w) w.
Proof.
  intros Hw.
  set (g := fun w : R =>
              a_v * (1 + (FM07_C1 + FM07_C2 * (1e4 / w) +
                          FM07_C3 * (1e4 / w * (1e4 / w) /
                                     ((1e4 / w * (1e4 / w) - FM07_X02) *
                                      (1e4 / w * (1e4 / w) - FM07_X02) +
                                      1e4 / w * (1e4 / w) * FM07_GAMMA2))) / 3.1)).
  set (h := fun w : R =>
              a_v * (FM07_C4 * (1e4 / w - FM07_C5) * (1e4 / w - FM07_C5) / 3.1)).
  assert (Hg : forall y, 0 < y -> continuity_pt g y).
  { intros y Hy. unfold g. reg; [apply fm07_denominator_nonzero | lra]. }
  assert (Hh : forall y, 0 < y -> continuity_pt h y).
  { intros y Hy. unfold h. reg. lra. }
  assert (Hlo : forall y, 0 < y -> 1e4 / FM07_C5 <= y -> fm07uv_sample a_v y = g y).
  { intros y Hy Hge. unfold fm07uv_sample; cbv zeta.
    destruct (Rlt_dec FM07_C5 (1e4 / y)) as [Hc | _]; [|reflexivity].
    exfalso. assert (1e4 / y <= FM07_C5)
      by (apply wavenumber_le; unfold FM07_C5 in *; lra). lra. }
  assert (Hhi : forall y, 0 < y < 1e4 / FM07_C5 ->
                          fm07uv_sample a_v y = g y + h y).
  { intros y Hy. unfold fm07uv_sample; cbv zeta.
    destruct (Rlt_dec FM07_C5 (1e4 / y)) as [_ | Hc].
    - unfold g, h, Rdiv. ring.
    - exfalso. apply Hc. apply wavenumber_gt; unfold FM07_C5 in *; lra. }
  assert (Hc5 : 0 < 1e4 / FM07_C5) by (unfold FM07_C5; lra).
  destruct (Rtotal_order w (1e4 / FM07_C5)) as [Hlt | [-> | Hgt]].
  - apply (continuity_pt_between _ (fun y => g y + h y) 0 (1e4 / FM07_C5));
      [lra | exact Hhi |].
    apply (continuity_pt_plus g h w); [apply Hg | apply Hh]; exact Hw.
  - apply (continuity_pt_between _
             (fun y => if Rle_dec (1e4 / FM07_C5) y then g y else g y + h y)
             0 (1e4 / FM07_C5 + 1)); [lra | |].
    + intros y Hy. destruct (Rle_dec (1e4 / FM07_C5) y);
        [apply Hlo; lra | apply Hhi; lra].
    + apply (continuity_pt_glue _ g h).
      * intros y. destruct (Rle_dec (1e4 / FM07_C5) y); [left | right]; reflexivity.
      * apply Hg; exact Hc5.
      * apply Hh; exact Hc5.
      * unfold h. replace (1e4 / (1e4 / FM07_C5)) with FM07_C5
          by (unfold FM07_C5; lra).
        unfold Rdiv; ring.
  - apply (continuity_pt_between _ g (1e4 / FM07_C5) (w + 1)); [lra | |].
    + intros y Hy. apply Hlo; lra.
    + apply Hg; exact Hw.
Qed.

Lemma spline_formula_continuous_pt (f : R -> R) a_v r_v w :
  w <> 0 -> continuity_pt f (1e4 / w) ->
  continuity_pt (fun w => a_v / r_v * (f (1e4 / w) + r_v)) w.
Proof.
  intros Hw Hf.
  change (continuity_pt
            (mult_real_fct (a_v / r_v)
               (plus_fct (comp f (fun w => 1e4 / w)) (fct_cte r_v))) w).
  apply continuity_pt_scal, continuity_pt_plus.
  - apply continuity_pt_comp; [reg; exact Hw | exact Hf].
  - apply continuity_pt_const. intros x y; reflexivity.
Qed.

Section Curve.
Variable spline : Type.
Variable splmake : list R -> list R -> nat -> spline.
Variable spleval : spline -> R -> R.

(** The whole F99 curve.  For a nonzero R_V, when the SciPy spline of the
    instance is continuous and passes through knot 7, the value [__call__]
    returns for a wavelength is continuous in the wavelength at every positive
    wavelength: on the spline side, on the analytic side, where the correction
    term of [_f99uv] sets in, and at 2700 Angstroms where the two sides
    meet. *)
Theorem f99_curve_continuous (r_v a_v w : R) :
  let self := __init__ splmake r_v in
  r_v <> 0 ->
  spleval (_spline self) (xknot _XKNOTS 7) = nth 7 (_f99kknots _XKNOTS r_v) 0 ->
  continuity (spleval (_spline self)) ->
  0 < w ->
  continuity_pt (fun w => hd 0 (__call__ spleval self [w] a_v)) w.
Proof.
  intros self Hrv Hknot Hspl Hw.
  rewrite knot7_abscissa, knot7_value in Hknot.
  set (S := fun w => a_v / r_v * (spleval (_spline self) (1e4 / w) + r_v)).
  set (U := fun w => _f99uv w a_v r_v).
  assert (HS : forall y, 0 < y -> continuity_pt S y).
  { intros y Hy. apply spline_formula_continuous_pt; [lra | apply Hspl]. }
  assert (HU : forall y, 0 < y -> continuity_pt U y).
  { intros y Hy. apply _f99uv_continuous; exact Hy. }
  assert (Hhi : forall y, 2700 < y -> hd 0 (__call__ spleval self [y] a_v) = S y).
  { intros y Hy. rewrite call_spline_side by exact Hy. reflexivity. }
  assert (Hlo : forall y, y <= 2700 -> hd 0 (__call__ spleval self [y] a_v) = U y).
  { intros y Hy. rewrite call_uv_side by exact Hy. reflexivity. }
  destruct (Rtotal_order w 2700) as [Hlt | [-> | Hgt]].
  - apply (continuity_pt_between _ U 0 2700); [lra | | apply HU; exact Hw].
    intros y Hy. apply Hlo; lra.
  - apply (continuity_pt_glue _ U (fun y => S y - U y)).
    + intros y. destruct (Rle_dec y 2700) as [Hy | Hy].
      * left. apply Hlo; exact Hy.
      * right. rewrite Hhi by lra. ring.
    + apply HU; lra.
    + apply (continuity_pt_minus S U); [apply HS | apply HU]; lra.
    + unfold S, U. rewrite Hknot, _f99uv_below by lra.
      rewrite (branches_agree_on_k a_v r_v _ Hrv). ring.
  - apply (continuity_pt_between _ S 2700 (w + 1)); [lra | | apply HS; exact Hw].
    intros y Hy. apply Hhi; lra.
Qed.
End Curve.

(** ** [_fm07kknots] *)

Lemma fm07kknots_at_least_ten (u : nat -> R) x0 x1 x2 x3 x4 x5 x6 x7 x8 x9 rest :
  _fm07kknots u (x0 :: x1 :: x2 :: x3 :: x4 :: x5 :: x6 :: x7 :: x8 :: x9 :: rest) =
  Some ([ (-0.83 + 0.63*FM07_R_V) * cpow x0 1.84 - FM07_R_V;
          (-0.83 + 0.63*FM07_R_V) * cpow x1 1.84 - FM07_R_V;
          (-0.83 + 0.63*FM07_R_V) * cpow x2 1.84 - FM07_R_V;
          (-0.83 + 0.63*FM07_R_V) * cpow x3 1.84 - FM07_R_V;
          (-0.83 + 0.63*FM07_R_V) * cpow x4 1.84 - FM07_R_V;
          0; 1.322; 2.055;
          FM07_C1 + FM07_C2 * x8 +
            FM07_C3 * (x8^2 / ((x8^2 - FM07_X02)^2 + x8^2 * FM07_GAMMA2));
          FM07_C1 + FM07_C2 * x9 +
            FM07_C3 * (x9^2 / ((x9^2 - FM07_X02)^2 + x9^2 * FM07_GAMMA2)) ]
        ++ map u (seq 10 (length rest))).
Proof. run_knots. reflexivity. Qed.

Lemma ten_or_more {A : Type} (l : list A) :
  (10 <= length l)%nat ->
  exists x0 x1 x2 x3 x4 x5 x6 x7 x8 x9 rest,
    l = x0 :: x1 :: x2 :: x3 :: x4 :: x5 :: x6 :: x7 :: x8 :: x9 :: rest.
Proof.
  intros H.
  do 10 (destruct l as [|? l]; [simpl in H; inversion H|];
         simpl in H; apply le_S_n in H).
  repeat eexists.
Qed.

Lemma fm07kknots_short (u : nat -> R) (xknots : list R) :
  (length xknots < 10)%nat -> _fm07kknots u xknots = None.
Proof.
  intros H.
  do 10 (destruct xknots as [|? xknots]; [run_knots; reflexivity|]).
  simpl in H. do 10 apply PeanoNat.Nat.succ_lt_mono in H. inversion H.
Qed.

(** [_fm07kknots] raises [IndexError] exactly when it is given fewer than
    ten abscissae, whatever [np.empty] returned. *)
Theorem fm07kknots_index_error (u : nat -> R) (xknots : list R) :
  _fm07kknots u xknots = None <-> (length xknots < 10)%nat.
Proof.
  split; [|apply fm07kknots_short].
  intros Hnone.
  destruct (PeanoNat.Nat.lt_ge_cases (length xknots) 10) as [Hlt | Hge];
    [exact Hlt|].
  destruct (ten_or_more xknots Hge)
    as (x0 & x1 & x2 & x3 & x4 & x5 & x6 & x7 & x8 & x9 & rest & ->).
  rewrite fm07kknots_at_least_ten in Hnone. discriminate Hnone.
Qed.

(** With ten abscissae or more [_fm07kknots] returns an array as long as
    its input.  Its first ten values are written by the function and do not
    depend on what [np.empty] returned; every entry from index 10 on is never
    written and is still the uninitialised value [np.empty] left there. *)
Theorem fm07kknots_writes_ten_items (u : nat -> R) (xknots : list R)
  (Hn : (10 <= length xknots)%nat) :
  exists kknots,
    _fm07kknots u xknots = Some kknots /\
    length kknots = length xknots /\
    skipn 10 kknots = skipn 10 (np_empty u (length xknots)) /\
    forall u' kknots',
      _fm07kknots u' xknots = Some kknots' ->
      firstn 10 kknots' = firstn 10 kknots.
Proof.
  destruct (ten_or_more xknots Hn)
    as (x0 & x1 & x2 & x3 & x4 & x5 & x6 & x7 & x8 & x9 & rest & ->).
  eexists. split; [apply fm07kknots_at_least_ten|].
  split; [|split].
  - simpl. rewrite length_map, length_seq. reflexivity.
  - reflexivity.
  - intros u' kknots' H'. rewrite fm07kknots_at_least_ten in H'.
    injection H' as <-. reflexivity.
Qed.

Lemma cpow_0 y : cpow 0 y = 0.
Proof. unfold cpow. destruct (Rlt_dec 0 0); [lra | reflexivity]. Qed.

Lemma cpow_increasing x1 x2 y :
  0 < y -> 0 <= x1 < x2 -> cpow x1 y < cpow x2 y.
Proof.
  intros Hy [H1 H12]. unfold cpow.
  destruct (Rlt_dec 0 x2) as [_ | H]; [|lra].
  destruct (Rlt_dec 0 x1) as [Hpos | _].
  - apply Rlt_Rpower_l; [exact Hy | split; assumption].
  - apply exp_pos.
Qed.

(** The five power-law knots of FM07: the value is [-FM07_R_V] at the
    abscissa 0, so that [k + R_V] vanishes there, and among abscissae that
    are not negative a larger abscissa has a larger value. *)
Theorem fm07_power_knots_increase (u : nat -> R) (xknots kknots : list R)
  (Hk : _fm07kknots u xknots = Some kknots) :
  (forall i, (i < 5)%nat -> nth i xknots 0 = 0 -> nth i kknots 0 = - FM07_R_V) /\
  (forall i j, (i < 5)%nat -> (j < 5)%nat ->
     0 <= nth i xknots 0 < nth j xknots 0 ->
     nth i kknots 0 < nth j kknots 0).
Proof.
  destruct (PeanoNat.Nat.lt_ge_cases (length xknots) 10) as [Hlt | Hge].
  { rewrite fm07kknots_short in Hk by exact Hlt. discriminate Hk. }
  destruct (ten_or_more xknots Hge)
    as (x0 & x1 & x2 & x3 & x4 & x5 & x6 & x7 & x8 & x9 & rest & ->).
  rewrite fm07kknots_at_least_ten in Hk. injection Hk as <-.
  assert (Hc : 0 < -0.83 + 0.63 * FM07_R_V) by (unfold FM07_R_V; lra).
  split.
  - intros i Hi Hx.
    do 5 (destruct i as [|i];
          [simpl in Hx |- *; rewrite Hx, cpow_0; ring|]).
    exfalso. do 5 apply PeanoNat.Nat.succ_lt_mono in Hi. inversion Hi.
  - intros i j Hi Hj Hx.
    assert (Hp : cpow (nth i (x0 :: x1 :: x2 :: x3 :: x4 :: x5 :: x6 :: x7 :: x8 :: x9 :: rest) 0) 1.84
                 < cpow (nth j (x0 :: x1 :: x2 :: x3 :: x4 :: x5 :: x6 :: x7 :: x8 :: x9 :: rest) 0) 1.84)
      by (apply cpow_increasing; [lra | exact Hx]).
    clear Hx.
    do 5 (destruct i as [|i];
          [do 5 (destruct j as [|j]; [simpl in Hp |- *; nra|]);
           exfalso; do 5 apply PeanoNat.Nat.succ_lt_mono in Hj; inversion Hj|]).
    exfalso. do 5 apply PeanoNat.Nat.succ_lt_mono in Hi. inversion Hi.
Qed.

Lemma fm07uv_sample_below a_v wi :
  1e4 / wi <= FM07_C5 ->
  fm07uv_sample a_v wi =
  a_v * (1 + (FM07_C1 + FM07_C2 * (1e4 / wi) +
              FM07_C3 * ((1e4 / wi)^2 /
                         (((1e4 / wi)^2 - FM07_X02)^2 +
                          (1e4 / wi)^2 * FM07_GAMMA2))) / 3.1).
Proof.
  intros H. unfold fm07uv_sample; cbv zeta.
  destruct (Rlt_dec FM07_C5 (1e4 / wi)) as [Hgt | _]; [lra|].
  simpl pow. rewrite !Rmult_1_r. reflexivity.
Qed.

Lemma wavelength_of_wavenumber x : x <> 0 -> 1e4 / (1e4 / x) = x.
Proof. intros H; field; exact H. Qed.

(** The two ultraviolet knots of FM07 carry the [k] of [_fm07uv]: for
    abscissae in (0, FM07_C5], [_fm07uv] at the wavelengths [1e4/xknots[8]]
    and [1e4/xknots[9]] is [a_v * (1 + k / 3.1)] for the knot values [k] of
    index 8 and 9. *)
Theorem fm07_uv_knots_match_fm07uv (u : nat -> R) (xknots kknots : list R)
  (a_v : R)
  (Hk : _fm07kknots u xknots = Some kknots)
  (H8 : 0 < nth 8 xknots 0 <= FM07_C5)
  (H9 : 0 < nth 9 xknots 0 <= FM07_C5) :
  _fm07uv [1e4 / nth 8 xknots 0; 1e4 / nth 9 xknots 0] a_v =
  [a_v * (1 + nth 8 kknots 0 / 3.1); a_v * (1 + nth 9 kknots 0 / 3.1)].
Proof.
  destruct (PeanoNat.Nat.lt_ge_cases (length xknots) 10) as [Hlt | Hge].
  { rewrite fm07kknots_short in Hk by exact Hlt. discriminate Hk. }
  destruct (ten_or_more xknots Hge)
    as (x0 & x1 & x2 & x3 & x4 & x5 & x6 & x7 & x8 & x9 & rest & ->).
  rewrite fm07kknots_at_least_ten in Hk. injection Hk as <-.
  simpl nth in *. unfold _fm07uv; simpl map.
  rewrite !fm07uv_sample_below
    by (rewrite wavelength_of_wavenumber; lra).
  rewrite !wavelength_of_wavenumber by lra.
  reflexivity.
Qed.

(** ** The normalisation at the V band and the infrared power law *)

(** At the wavenumber 1.82 the optical polynomials of CCM89 and of OD94 are
    [a = 1], [b = 0]: with a nonzero R_V the three laws return exactly A_V
    there, whatever R_V is, in both unit forms. *)
Theorem v_band_is_exactly_a_v (a_v r_v : R) (Hrv : r_v <> 0) :
  ccm89_invum [1.82] a_v r_v = [a_v] /\
  od94_invum [1.82] a_v r_v = [a_v] /\
  ccm89_aa [1e4 / 1.82] a_v r_v = [a_v] /\
  od94_aa [1e4 / 1.82] a_v r_v = [a_v] /\
  gcc09_aa [1e4 / 1.82] a_v r_v = [a_v].
Proof.
  assert (Hc : scale_ab a_v r_v (ccm89ab_opt_invum 1.82) = a_v).
  { rewrite scale_ab_fst_snd. unfold ccm89ab_opt_invum; cbv zeta.
    simpl fst; simpl snd. lra. }
  assert (Ho : scale_ab a_v r_v (od94ab_opt_invum 1.82) = a_v).
  { rewrite scale_ab_fst_snd. unfold od94ab_opt_invum; cbv zeta.
    simpl fst; simpl snd. lra. }
  unfold ccm89_invum, od94_invum, ccm89_aa, od94_aa, gcc09_aa; simpl map.
  replace (1e4 / (1e4 / 1.82)) with 1.82 by lra.
  rewrite ccm89ab_invum_opt, od94ab_invum_opt, gcc09ab_invum_opt by lra.
  rewrite Hc, Ho. repeat split; reflexivity.
Qed.

Lemma v_band_is_exactly_a_v_at_3_1 :
  ccm89_invum [1.82] 2 3.1 = [2] /\
  od94_invum [1.82] 2 3.1 = [2] /\
  ccm89_aa [1e4 / 1.82] 2 3.1 = [2] /\
  od94_aa [1e4 / 1.82] 2 3.1 = [2] /\
  gcc09_aa [1e4 / 1.82] 2 3.1 = [2].
Proof. apply (v_band_is_exactly_a_v 2 3.1). lra. Defined.

Lemma ir_value a_v r_v x :
  scale_ab a_v r_v (ccm89ab_ir_invum x) =
  a_v * (0.574 - 0.527 * / r_v) * Rpower x 1.61.
Proof.
  rewrite scale_ab_fst_snd. unfold ccm89ab_ir_invum; cbv zeta.
  simpl fst; simpl snd. lra.
Qed.

Lemma ir_weight_pos r_v : 0.527 < 0.574 * r_v -> 0 < 0.574 - 0.527 * / r_v.
Proof.
  intros H.
  assert (Hr : 0 < r_v) by lra.
  assert (Hi : 0 < / r_v) by (apply Rinv_0_lt_compat; exact Hr).
  assert (H1 : r_v * / r_v = 1) by (apply Rinv_r; lra).
  nra.
Qed.

Lemma ir_positive_increasing a_v r_v x1 x2 :
  0 < a_v -> 0.527 < 0.574 * r_v -> 0 < x1 < x2 ->
  0 < scale_ab a_v r_v (ccm89ab_ir_invum x1) <
      scale_ab a_v r_v (ccm89ab_ir_invum x2).
Proof.
  intros Ha Hr Hx. rewrite !ir_value.
  pose proof (ir_weight_pos r_v Hr) as Hw.
  assert (Hc : 0 < a_v * (0.574 - 0.527 * / r_v))
    by (apply Rmult_lt_0_compat; assumption).
  assert (Hp1 : 0 < Rpower x1 1.61) by apply exp_pos.
  assert (Hp : Rpower x1 1.61 < Rpower x2 1.61)
    by (apply Rlt_Rpower_l; [lra | exact Hx]).
  split.
  - apply Rmult_lt_0_compat; assumption.
  - apply Rmult_lt_compat_l; assumption.
Qed.

(** In the infrared branch ([0 < x < 1.1]) of the three laws the magnitude
    is positive and strictly increasing in the wavenumber, for a positive A_V
    and an R_V with [0.574 * r_v > 0.527] (every [r_v >= 1]). *)
Theorem infrared_extinction_increases (a_v r_v x1 x2 : R)
  (Ha : 0 < a_v) (Hr : 0.527 < 0.574 * r_v)
  (Hx : 0 < x1 < x2) (Hir : x2 < 1.1) :
  0 < scale_ab a_v r_v (ccm89ab_invum x1) < scale_ab a_v r_v (ccm89ab_invum x2) /\
  0 < scale_ab a_v r_v (od94ab_invum x1) < scale_ab a_v r_v (od94ab_invum x2) /\
  0 < scale_ab a_v r_v (gcc09ab_invum x1) < scale_ab a_v r_v (gcc09ab_invum x2).
Proof.
  rewrite !ccm89ab_invum_ir, !od94ab_invum_ir, !gcc09ab_invum_ir by lra.
  pose proof (ir_positive_increasing a_v r_v x1 x2 Ha Hr Hx) as H.
  split; [exact H | split; exact H].
Qed.

Lemma infrared_extinction_increases_at_3_1 :
  0 < scale_ab 1 3.1 (ccm89ab_invum 0.5) < scale_ab 1 3.1 (ccm89ab_invum 1) /\
  0 < scale_ab 1 3.1 (od94ab_invum 0.5) < scale_ab 1 3.1 (od94ab_invum 1) /\
  0 < scale_ab 1 3.1 (gcc09ab_invum 0.5) < scale_ab 1 3.1 (gcc09ab_invum 1).
Proof. apply (infrared_extinction_increases 1 3.1 0.5 1); lra. Defined.

(** ** The correction term of FM07 *)

(** [_fm07uv] adds [FM07_C4 * y * y], with [y = x - FM07_C5], to [k] for a
    wavenumber above 6.097 and for no other: up to and including 6.097 the
    result is the uncorrected one, above it what is added is positive. *)
Theorem fm07_correction_only_above_C5 (a_v w : R) :
  (1e4 / w <= FM07_C5 ->
   _fm07uv [w] a_v = [a_v * (1 + fm07_kbase (1e4 / w) / 3.1)]) /\
  (FM07_C5 < 1e4 / w ->
   _fm07uv [w] a_v =
     [a_v * (1 + (fm07_kbase (1e4 / w) +
                  FM07_C4 * (1e4 / w - FM07_C5) * (1e4 / w - FM07_C5)) / 3.1)] /\
   0 < FM07_C4 * (1e4 / w - FM07_C5) * (1e4 / w - FM07_C5)).
Proof.
  unfold _fm07uv, fm07uv_sample, fm07_kbase; simpl map; cbv zeta.
  split; intros H; destruct (Rlt_dec FM07_C5 (1e4 / w)) as [Hc | Hc];
    try lra; try reflexivity.
  split; [reflexivity|].
  assert (Hy : 0 < 1e4 / w - FM07_C5) by lra.
  assert (H4 : 0 < FM07_C4) by (unfold FM07_C4; lra).
  apply Rmult_lt_0_compat; [apply Rmult_lt_0_compat|]; assumption.
Qed.

(** ** The infrared anchor knots of F99 *)

(** For an array of at least nine abscissae and a nonzero R_V the
    optical/IR adjustment [(a_v/r_v)*(k + r_v)] of the first three knot values
    does not depend on R_V: it is 0 at knot 0 (the wavenumber 0),
    [a_v * 0.26469/3.1] at knot 1 and [a_v * 0.82925/3.1] at knot 2.  Of the
    abscissae, [_f99kknots] reads the entries 7 and 8 only: two such arrays
    that agree there give the same knot values.  (A shorter array makes the
    source raise [IndexError]; it is excluded here.) *)
Theorem f99_infrared_anchor_knots (xknots : list R) (a_v r_v : R)
  (Hlen : (9 <= length xknots)%nat) (Hrv : r_v <> 0) :
  a_v / r_v * (nth 0 (_f99kknots xknots r_v) 0 + r_v) = 0 /\
  a_v / r_v * (nth 1 (_f99kknots xknots r_v) 0 + r_v) = a_v * (0.26469 / 3.1) /\
  a_v / r_v * (nth 2 (_f99kknots xknots r_v) 0 + r_v) = a_v * (0.82925 / 3.1) /\
  forall xknots',
    (9 <= length xknots')%nat ->
    nth 7 xknots' 0 = nth 7 xknots 0 -> nth 8 xknots' 0 = nth 8 xknots 0 ->
    _f99kknots xknots' r_v = _f99kknots xknots r_v.
Proof.
  simpl nth.
  split; [field; exact Hrv|].
  split; [field; split; [lra | exact Hrv]|].
  split; [field; split; [lra | exact Hrv]|].
  intros xknots' _ H7 H8. unfold _f99kknots, xknot. rewrite H7, H8. reflexivity.
Qed.

Lemma f99_infrared_anchor_knots_at_3_1 :
  1 / 3.1 * (nth 0 (_f99kknots _XKNOTS 3.1) 0 + 3.1) = 0 /\
  1 / 3.1 * (nth 1 (_f99kknots _XKNOTS 3.1) 0 + 3.1) = 1 * (0.26469 / 3.1) /\
  1 / 3.1 * (nth 2 (_f99kknots _XKNOTS 3.1) 0 + 3.1) = 1 * (0.82925 / 3.1) /\
  forall xknots',
    (9 <= length xknots')%nat ->
    nth 7 xknots' 0 = nth 7 _XKNOTS 0 -> nth 8 xknots' 0 = nth 8 _XKNOTS 0 ->
    _f99kknots xknots' 3.1 = _f99kknots _XKNOTS 3.1.
Proof.
  apply (f99_infrared_anchor_knots _XKNOTS 1 3.1).
  - simpl. apply le_n.
  - lra.
Defined.

(** ** The curves as functions of the wavenumber or the wavelength *)

(** The ultraviolet branch functions are continuous at every wavenumber:
    their rational terms have no pole, and at 5.9 the correction starts from
    zero, so neither [a] nor [b] jumps there. *)
Theorem uv_branches_continuous :
  continuity (fun x => fst (ccm89ab_uv_invum x)) /\
  continuity (fun x => snd (ccm89ab_uv_invum x)) /\
  continuity (fun x => fst (gcc09ab_uv_invum x)) /\
  continuity (fun x => snd (gcc09ab_uv_invum x)).
Proof.
  destruct ccm89ab_uv_invum_continuous as [H1 H2].
  destruct gcc09ab_uv_invum_continuous as [H3 H4].
  repeat split; assumption.
Qed.

(** The analytic ultraviolet functions of F99 and FM07 are continuous in
    the wavelength at every positive wavelength, the one where their
    correction term sets in included. *)
Theorem analytic_uv_continuous_in_wavelength (a_v r_v w : R) (Hw : 0 < w) :
  continuity_pt (fun w => _f99uv w a_v r_v) w /\
  continuity_pt (fun w => hd 0 (_fm07uv [w] a_v)) w.
Proof.
  split.
  - apply _f99uv_continuous; exact Hw.
  - apply (fm07uv_sample_continuous a_v w Hw).
Qed.

Lemma analytic_uv_continuous_in_wavelength_at_C5 :
  continuity_pt (fun w => _f99uv w 1 3.1) (1e4 / 5.9) /\
  continuity_pt (fun w => hd 0 (_fm07uv [w] 1)) (1e4 / 5.9).
Proof. apply (analytic_uv_continuous_in_wavelength 1 3.1 (1e4 / 5.9)). lra. Defined.

(** The magnitude of a sample, [a_v * (a + b / r_v)], is continuous in the
    wavenumber at every positive wavenumber other than the thresholds 1.1,
    3.3 and, for CCM89 and OD94, 8.0; GCC09 is continuous at 8.0. *)
Theorem laws_continuous_between_thresholds (a_v r_v x : R)
  (H0 : 0 < x) (H1 : x <> 1.1) (H3 : x <> 3.3) :
  (x <> 8 -> continuity_pt (fun x => scale_ab a_v r_v (ccm89ab_invum x)) x) /\
  (x <> 8 -> continuity_pt (fun x => scale_ab a_v r_v (od94ab_invum x)) x) /\
  continuity_pt (fun x => scale_ab a_v r_v (gcc09ab_invum x)) x.
Proof.
  split; [|split].
  - intros H8. apply ccm89_curve_continuous; assumption.
  - intros H8. apply od94_curve_continuous; assumption.
  - apply gcc09_curve_continuous; assumption.
Qed.

Lemma laws_continuous_between_thresholds_at_5_9 :
  (5.9 <> 8 -> continuity_pt (fun x => scale_ab 1 3.1 (ccm89ab_invum x)) 5.9) /\
  (5.9 <> 8 -> continuity_pt (fun x => scale_ab 1 3.1 (od94ab_invum x)) 5.9) /\
  continuity_pt (fun x => scale_ab 1 3.1 (gcc09ab_invum x)) 5.9.
Proof. apply (laws_continuous_between_thresholds 1 3.1 5.9); lra. Defined.

(** No smoothing is done at the thresholds: for a nonzero A_V and an R_V of
    at least 1 the magnitude of CCM89 and of OD94 jumps at the wavenumbers
    3.3 and 8.0, and that of GCC09 at 3.3. *)
Theorem branch_thresholds_are_jumps (a_v r_v : R)
  (Ha : a_v <> 0) (Hr : 1 <= r_v) :
  ~ continuity_pt (fun x => scale_ab a_v r_v (ccm89ab_invum x)) 3.3 /\
  ~ continuity_pt (fun x => scale_ab a_v r_v (ccm89ab_invum x)) 8 /\
  ~ continuity_pt (fun x => scale_ab a_v r_v (od94ab_invum x)) 3.3 /\
  ~ continuity_pt (fun x => scale_ab a_v r_v (od94ab_invum x)) 8 /\
  ~ continuity_pt (fun x => scale_ab a_v r_v (gcc09ab_invum x)) 3.3.
Proof.
  split; [apply ccm89_jump_at_3_3; assumption|].
  split; [apply ccm89_jump_at_8; assumption|].
  split; [apply od94_jump_at_3_3; assumption|].
  split; [apply od94_jump_at_8; assumption|].
  apply gcc09_jump_at_3_3; assumption.
Qed.

Lemma branch_thresholds_are_jumps_at_3_1 :
  ~ continuity_pt (fun x => scale_ab 1 3.1 (ccm89ab_invum x)) 3.3 /\
  ~ continuity_pt (fun x => scale_ab 1 3.1 (ccm89ab_invum x)) 8 /\
  ~ continuity_pt (fun x => scale_ab 1 3.1 (od94ab_invum x)) 3.3 /\
  ~ continuity_pt (fun x => scale_ab 1 3.1 (od94ab_invum x)) 8 /\
  ~ continuity_pt (fun x => scale_ab 1 3.1 (gcc09ab_invum x)) 3.3.
Proof. apply (branch_thresholds_are_jumps 1 3.1); lra. Defined.

Lemma f99_curve_continuous_at_2700 :
  continuity_pt
    (fun w => hd 0 (__call__ line_spleval (__init__ line_splmake 3.1) [w] 1))
    2700.
Proof.
  apply (f99_curve_continuous (R * R * R) line_splmake line_spleval 3.1 1 2700).
  - lra.
  - unfold __init__, line_splmake, line_spleval, xknot; simpl. ring.
  - intros x. apply line_spleval_continuous.
  - lra.
Defined.

Lemma fm07kknots_writes_ten_items_of_eleven :
  exists kknots,
    _fm07kknots (fun _ => 0) (ten_xknots ++ [1e4 / 2500]) = Some kknots /\
    length kknots = length (ten_xknots ++ [1e4 / 2500]) /\
    skipn 10 kknots =
      skipn 10 (np_empty (fun _ => 0) (length (ten_xknots ++ [1e4 / 2500]))) /\
    forall u' kknots',
      _fm07kknots u' (ten_xknots ++ [1e4 / 2500]) = Some kknots' ->
      firstn 10 kknots' = firstn 10 kknots.
Proof.
  apply (fm07kknots_writes_ten_items (fun _ => 0) (ten_xknots ++ [1e4 / 2500])).
  simpl. repeat constructor.
Defined.

Lemma fm07_power_knots_increase_on_ten_xknots :
  exists kknots,
    _fm07kknots (fun _ => 0) ten_xknots = Some kknots /\
    (forall i, (i < 5)%nat -> nth i ten_xknots 0 = 0 ->
               nth i kknots 0 = - FM07_R_V) /\
    (forall i j, (i < 5)%nat -> (j < 5)%nat ->
       0 <= nth i ten_xknots 0 < nth j ten_xknots 0 ->
       nth i kknots 0 < nth j kknots 0).
Proof.
  eexists. split; [apply fm07kknots_at_least_ten|].
  apply (fm07_power_knots_increase (fun _ => 0) ten_xknots).
  apply fm07kknots_at_least_ten.
Defined.

Lemma fm07_uv_knots_match_fm07uv_on_ten_xknots :
  exists kknots,
    _fm07kknots (fun _ => 0) ten_xknots = Some kknots /\
    _fm07uv [1e4 / nth 8 ten_xknots 0; 1e4 / nth 9 ten_xknots 0] 1 =
    [1 * (1 + nth 8 kknots 0 / 3.1); 1 * (1 + nth 9 kknots 0 / 3.1)].
Proof.
  eexists. split; [apply fm07kknots_at_least_ten|].
  apply (fm07_uv_knots_match_fm07uv (fun _ => 0) ten_xknots).
  - apply fm07kknots_at_least_ten.
  - unfold FM07_C5; simpl; lra.
  - unfold FM07_C5; simpl; lra.
Defined.

(** ** The direction of the R_V dependence *)

Lemma ccm89_uv_b_pos x : 3.3 <= x -> 0 < snd (ccm89ab_uv_invum x).
Proof.
  intros Hx.
  assert (Hd : 0 < 1.206 / ((x - 4.62) * (x - 4.62) + 0.263)).
  { apply Rdiv_lt_0_compat; [lra|].
    pose proof (Rle_0_sqr (x - 4.62)) as Hs; unfold Rsqr in Hs; lra. }
  destruct (Rle_dec x 5.9) as [Hle | Hgt].
  - rewrite ccm89ab_uv_invum_below by exact Hle.
    unfold ccm89_uv_base; simpl snd. lra.
  - rewrite ccm89ab_uv_invum_above by lra.
    destruct (ccm89_uv_extra_sign x) as [_ He]; [lra|].
    unfold add_ab, ccm89_uv_base in *; simpl snd in *. lra.
Qed.

Lemma gcc09_uv_b_pos x : 3.3 <= x -> 0 < snd (gcc09ab_uv_invum x).
Proof.
  intros Hx.
  assert (Hd : 0 < 0.718 / ((x - 4.59) * (x - 4.59) + 0.0530 * 3.1)).
  { apply Rdiv_lt_0_compat; [lra|].
    pose proof (Rle_0_sqr (x - 4.59)) as Hs; unfold Rsqr in Hs; lra. }
  destruct (Rle_dec x 5.9) as [Hle | Hgt].
  - rewrite gcc09ab_uv_invum_below by exact Hle.
    unfold gcc09_uv_base; simpl snd. lra.
  - rewrite gcc09ab_uv_invum_above by lra.
    destruct (gcc09_uv_extra_sign x) as [_ He]; [lra|].
    unfold add_ab, gcc09_uv_base in *; simpl snd in *. lra.
Qed.

Lemma ccm89_fuv_b_pos x : 8 <= x -> 0 < snd (ccm89ab_fuv_invum x).
Proof.
  intros Hx. unfold ccm89ab_fuv_invum; cbv zeta; simpl snd.
  assert (Hy : 0 <= x - 8) by lra.
  generalize dependent (x - 8). intros y Hy.
  assert (H2 : 0 <= y * y) by (apply Rmult_le_pos; assumption).
  destruct (Rle_dec y 10) as [Hs | Hl].
  - assert (0 <= y * y * y) by (apply Rmult_le_pos; assumption). nra.
  - assert (10 * (y * y) <= y * y * y) by nra. nra.
Qed.

(** A larger R_V raises [a_v * (a + b / r_v)] when [b < 0] and lowers it
    when [b > 0]. *)
Lemma scale_ab_in_r_v a_v r1 r2 (ab : R * R) :
  0 < a_v -> 0 < r1 < r2 ->
  (snd ab < 0 -> scale_ab a_v r1 ab < scale_ab a_v r2 ab) /\
  (0 < snd ab -> scale_ab a_v r2 ab < scale_ab a_v r1 ab).
Proof.
  intros Ha Hr. rewrite !scale_ab_fst_snd.
  assert (Hi : / r2 < / r1) by (apply Rinv_lt_contravar; [nra | lra]).
  split; intros Hb; apply Rmult_lt_compat_l; try exact Ha; nra.
Qed.

(** For a positive A_V, a larger positive R_V gives a larger magnitude in
    the infrared branch ([0 < x < 1.1]) and a smaller one from the
    ultraviolet branch on ([x >= 3.3]), in each of the three laws. *)
Theorem r_v_raises_infrared_lowers_ultraviolet (a_v r1 r2 x : R)
  (Ha : 0 < a_v) (Hr : 0 < r1 < r2) :
  (0 < x < 1.1 ->
   scale_ab a_v r1 (ccm89ab_invum x) < scale_ab a_v r2 (ccm89ab_invum x) /\
   scale_ab a_v r1 (od94ab_invum x) < scale_ab a_v r2 (od94ab_invum x) /\
   scale_ab a_v r1 (gcc09ab_invum x) < scale_ab a_v r2 (gcc09ab_invum x)) /\
  (3.3 <= x ->
   scale_ab a_v r2 (ccm89ab_invum x) < scale_ab a_v r1 (ccm89ab_invum x) /\
   scale_ab a_v r2 (od94ab_invum x) < scale_ab a_v r1 (od94ab_invum x) /\
   scale_ab a_v r2 (gcc09ab_invum x) < scale_ab a_v r1 (gcc09ab_invum x)).
Proof.
  split.
  - intros Hx.
    rewrite ccm89ab_invum_ir, od94ab_invum_ir, gcc09ab_invum_ir by lra.
    assert (Hb : snd (ccm89ab_ir_invum x) < 0).
    { unfold ccm89ab_ir_invum; cbv zeta; simpl snd.
      assert (0 < Rpower x 1.61) by apply exp_pos. lra. }
    pose proof (proj1 (scale_ab_in_r_v a_v r1 r2 _ Ha Hr) Hb) as H.
    split; [exact H | split; exact H].
  - intros Hx.
    rewrite (od94ab_eq_ccm89ab x) by (right; exact Hx).
    rewrite gcc09ab_invum_uv by exact Hx.
    assert (Hc : 0 < snd (ccm89ab_invum x)).
    { destruct (Rlt_dec x 8) as [L | G].
      - rewrite ccm89ab_invum_uv by lra. apply ccm89_uv_b_pos; exact Hx.
      - rewrite ccm89ab_invum_fuv by lra. apply ccm89_fuv_b_pos; lra. }
    pose proof (proj2 (scale_ab_in_r_v a_v r1 r2 _ Ha Hr) Hc) as H.
    pose proof (proj2 (scale_ab_in_r_v a_v r1 r2 _ Ha Hr)
                  (gcc09_uv_b_pos x Hx)) as Hg.
    split; [exact H | split; [exact H | exact Hg]].
Qed.

Lemma r_v_raises_infrared_lowers_ultraviolet_at_5 :
  (0 < 5 < 1.1 ->
   scale_ab 1 2 (ccm89ab_invum 5) < scale_ab 1 3.1 (ccm89ab_invum 5) /\
   scale_ab 1 2 (od94ab_invum 5) < scale_ab 1 3.1 (od94ab_invum 5) /\
   scale_ab 1 2 (gcc09ab_invum 5) < scale_ab 1 3.1 (gcc09ab_invum 5)) /\
  (3.3 <= 5 ->
   scale_ab 1 3.1 (ccm89ab_invum 5) < scale_ab 1 2 (ccm89ab_invum 5) /\
   scale_ab 1 3.1 (od94ab_invum 5) < scale_ab 1 2 (od94ab_invum 5) /\
   scale_ab 1 3.1 (gcc09ab_invum 5) < scale_ab 1 2 (gcc09ab_invum 5)).
Proof. apply (r_v_raises_infrared_lowers_ultraviolet 1 2 3.1 5); lra. Defined.
